(** * SixtyFour workflow engine: builder, monitor and results panel

    A shallow embedding of the TypeScript front end of the workflow engine
    (the three revisions of [WorkflowBuilder], [BlockComponent], [JobMonitor],
    [ResultsPanel] and [types/workflow]) together with a model of the
    execution engine that the front end talks to.

    React state is threaded explicitly: a handler of the component takes the
    current state and returns the next state with the toasts it raised.  The
    [connections] value a [useCallback] closure tests is the state the
    functional updater [prev => ...] receives, i.e. one handler runs per
    render. *)

From Stdlib Require Import ZArith QArith Qabs Qminmax Lia Lqa DecimalString.
From stdpp Require Import base option list strings pretty gmap sorting.

Set Warnings "-register-all".

(** ** JavaScript values *)

(** The [any] of [Record<string, any>]: numbers that occur in the modelled
    code are integers; an object keeps its fields in insertion order, from
    which [Object.keys] lists the array indices first. *)
Inductive jsval : Type :=
  | JUndefined
  | JNull
  | JBool (b : bool)
  | JNum (n : Z)
  | JStr (s : string)
  | JArr (elems : list jsval)
  | JObj (fields : list (string * jsval)).

(** Truthiness, as used by [!data] and [row[column] || '']. *)
Definition truthy (v : jsval) : bool :=
  match v with
  | JUndefined | JNull => false
  | JBool b => b
  | JNum n => negb (n =? 0)%Z
  | JStr s => negb (String.eqb s "")
  | JArr _ | JObj _ => true
  end.

(** [typeof v === 'object']: true of [null], arrays and objects. *)
Definition typeof_object (v : jsval) : bool :=
  match v with
  | JNull | JArr _ | JObj _ => true
  | _ => false
  end.

(** A non-null string is truthy unless it is empty ([!connectingFrom]). *)
Definition truthy_string (s : option string) : bool :=
  match s with
  | Some s => negb (String.eqb s "")
  | None => false
  end.

(** ** types/workflow.ts *)

(** [type BlockType = 'read_csv' | 'save_csv' | 'filter' | 'enrich_lead' |
    'find_email'].  The type is erased at run time ([handlePaletteDrop] casts
    a dragged string to it), so functions that switch on a block type are
    modelled on the string. *)
Inductive BlockType : Type :=
  | read_csv | save_csv | filter_block | enrich_lead | find_email.

Definition BlockType_tag (t : BlockType) : string :=
  match t with
  | read_csv => "read_csv"
  | save_csv => "save_csv"
  | filter_block => "filter"
  | enrich_lead => "enrich_lead"
  | find_email => "find_email"
  end.

(** [type JobStatus = 'pending' | 'running' | 'completed' | 'failed' |
    'cancelled'] *)
Inductive JobStatus : Type :=
  | pending | running | completed | failed | cancelled.

#[global] Instance JobStatus_eq_dec : EqDecision JobStatus.
Proof. solve_decision. Defined.

Module Position.
(** [interface Position { x: number; y: number }]; a coordinate is a finite
    number, not necessarily an integer. *)
Record t : Type := mk { x : Q; y : Q }.
End Position.

Record BlockConfig : Type := mkBlockConfig {
  block_id : string;
  block_type : string;
  name : string;
  parameters : gmap string jsval;
  position : Position.t;
}.

Record WorkflowConnection : Type := mkWorkflowConnection {
  connection_id : string;
  source_block_id : string;
  target_block_id : string;
}.

#[global] Instance WorkflowConnection_eq_dec : EqDecision WorkflowConnection.
Proof. solve_decision. Defined.

(** ** react-hot-toast *)

Inductive toast : Type :=
  | toast_success (msg : string)
  | toast_error (msg : string)
  | toast_plain (msg : string).

(** ** Comparison of numbers *)

#[global] Instance Qlt_decision (a b : Q) : Decision (a < b)%Q :=
  match Qlt_le_dec a b with
  | left H => left H
  | right H => right (Qle_not_lt _ _ H)
  end.

(** ** components/WorkflowBuilder.tsx *)

Module WorkflowBuilder.

(** The [useState] cells of the component that the handlers below read or
    write.  [connectingFrom] and [isConnecting] exist in the revision with
    click-to-connect only; the other revisions never touch them. *)
Record state : Type := mkState {
  blocks : list BlockConfig;
  connections : list WorkflowConnection;
  connectingFrom : option string;
  isConnecting : bool;
}.

Definition initial : state :=
  {| blocks := []; connections := []; connectingFrom := None;
     isConnecting := false |}.

Definition setBlocks (f : list BlockConfig → list BlockConfig) (st : state) : state :=
  {| blocks := f (blocks st); connections := connections st;
     connectingFrom := connectingFrom st; isConnecting := isConnecting st |}.

Definition setConnections
    (f : list WorkflowConnection → list WorkflowConnection) (st : state) : state :=
  {| blocks := blocks st; connections := f (connections st);
     connectingFrom := connectingFrom st; isConnecting := isConnecting st |}.

Definition setConnectingFrom (v : option string) (st : state) : state :=
  {| blocks := blocks st; connections := connections st;
     connectingFrom := v; isConnecting := isConnecting st |}.

Definition setIsConnecting (v : bool) (st : state) : state :=
  {| blocks := blocks st; connections := connections st;
     connectingFrom := connectingFrom st; isConnecting := v |}.

(** [conn.source_block_id === sourceId && conn.target_block_id === targetId] *)
Definition same_pair (sourceId targetId : string) (conn : WorkflowConnection) : Prop :=
  source_block_id conn = sourceId ∧ target_block_id conn = targetId.

#[global] Instance same_pair_dec s t conn : Decision (same_pair s t conn).
Proof. unfold same_pair. apply _. Defined.

(** [removeBlock]: the same text in the three revisions. *)
Definition removeBlock (blockId : string) (st : state) : state * list toast :=
  let st := setBlocks (λ prev, filter (λ block, block_id block ≠ blockId) prev) st in
  let st := setConnections (λ prev,
              filter (λ conn, source_block_id conn ≠ blockId
                              ∧ target_block_id conn ≠ blockId) prev) st in
  (st, [toast_success "Block removed"]).

(** [removeConnection] *)
Definition removeConnection (connectionId : string) (st : state) : state * list toast :=
  (setConnections (λ prev, filter (λ conn, connection_id conn ≠ connectionId) prev) st,
   [toast_success "Connection removed"]).

(** [connectBlocks]: the same text in the three revisions.  [uuid] is the
    value [uuidv4()] returns for the new connection. *)
Definition connectBlocks (sourceId targetId : string) (uuid : string) (st : state)
  : state * list toast :=
  let existingConnection := list_find (same_pair sourceId targetId) (connections st) in
  if existingConnection is Some _ then
    (st, [toast_error "Connection already exists"])
  else if decide (sourceId = targetId) then
    (st, [toast_error "Cannot connect block to itself"])
  else
    let newConnection :=
      {| connection_id := uuid; source_block_id := sourceId;
         target_block_id := targetId |} in
    (setConnections (λ prev, prev ++ [newConnection]) st,
     [toast_success "Blocks connected"]).

(** [Partial<BlockConfig>]: every key of [BlockConfig] may be present or
    absent ([None]); a key that is present holds a value of the type of the
    field. *)
Record PartialBlockConfig : Type := mkPartial {
  upd_block_id : option string;
  upd_block_type : option string;
  upd_name : option string;
  upd_parameters : option (gmap string jsval);
  upd_position : option Position.t;
}.

(** [{ ...block, ...updates }]: the keys of [updates] overwrite those of
    [block]. *)
Definition spread (block : BlockConfig) (updates : PartialBlockConfig) : BlockConfig :=
  {| block_id := default (block_id block) (upd_block_id updates);
     block_type := default (block_type block) (upd_block_type updates);
     name := default (name block) (upd_name updates);
     parameters := default (parameters block) (upd_parameters updates);
     position := default (position block) (upd_position updates) |}.

(** [updateBlock]; the two callers pass [{ position }] (dragging) and
    [{ parameters }] (the parameters modal). *)

Definition updateBlock (blockId : string) (updates : PartialBlockConfig) (st : state)
  : state * list toast :=
  (setBlocks (λ prev,
     (λ block, if decide (block_id block = blockId) then spread block updates else block)
       <$> prev) st, []).

(** [BLOCK_TYPES], reduced to the [type] and [name] fields [addBlock] reads. *)
Definition BLOCK_TYPES : list (string * string) :=
  [("read_csv", "Read CSV"); ("filter", "Filter"); ("enrich_lead", "Enrich Lead");
   ("find_email", "Find Email"); ("save_csv", "Save CSV")].

(** [BLOCK_TYPES.find(bt => bt.type === blockType)?.name || blockType] *)
Definition block_name (blockType : string) : string :=
  match list_find (λ bt, bt.1 = blockType) BLOCK_TYPES with
  | Some (_, bt) => if String.eqb bt.2 "" then blockType else bt.2
  | None => blockType
  end.

(** [Math.abs(pos.x - x) < 220 && Math.abs(pos.y - y) < 140].  The loop
    variables [x] and [y] start at 200 and only ever have integers added, so
    they are integers; the positions of existing blocks are arbitrary numbers
    (a drop or a drag puts a block anywhere). *)
Definition overlaps (x y : Z) (pos : Position.t) : Prop :=
  (Qabs (Position.x pos - inject_Z x) < 220 ∧ Qabs (Position.y pos - inject_Z y) < 140)%Q.

#[global] Instance overlaps_dec x y pos : Decision (overlaps x y pos).
Proof. unfold overlaps. apply _. Defined.

(** The [while] loop of [addBlock]; [fuel] bounds the number of times the
    loop condition is evaluated, [None] means the bound was reached. *)
Fixpoint findFreePosition (fuel : nat) (existingPositions : list Position.t) (x y : Z)
  : option (Z * Z) :=
  match fuel with
  | O => None
  | S fuel =>
      if decide (Exists (overlaps x y) existingPositions) then
        let x := (x + 250)%Z in
        if decide (800 < x)%Z
        then findFreePosition fuel existingPositions 200 (y + 160)
        else findFreePosition fuel existingPositions x y
      else Some (x, y)
  end.

(** The rows the search visits: [y] takes the values [200 + 160 * j]; a
    position lies in the band of row [j] when [Math.abs(pos.y - y) < 140]
    holds for the [y] of the row. *)
Definition row_y (j : nat) : Z := 200 + 160 * Z.of_nat j.

Definition in_row (pos : Position.t) (j : nat) : Prop :=
  (Qabs (Position.y pos - inject_Z (row_y j)) < 140)%Q.

#[global] Instance in_row_dec pos j : Decision (in_row pos j).
Proof. unfold in_row. apply _. Defined.

(** [const existingPositions = blocks.map(b => b.position)] *)
Definition existingPositions (st : state) : list Position.t := position <$> blocks st.

(** [position?.x || 200]: a coordinate equal to zero is falsy. *)
Definition coord_or_200 (c : Q) : Q := if Qeq_bool c 0 then 200 else c.

Section AddBlock.

(** The two revisions with a canvas have the same [addBlock] and differ in
    the [getDefaultParameters] it calls. *)
Variable getDefaultParameters : string → gmap string jsval.

(** [addBlock] of the revisions with a canvas ([part_001], [part_002]).
    [uuid] is the value of [uuidv4()]. *)
Definition addBlock (fuel : nat) (blockType : string) (position : option Position.t)
    (uuid : string) (st : state) : option (state * list toast) :=
  xy ← match position with
       | Some p => Some (coord_or_200 (Position.x p), coord_or_200 (Position.y p))
       | None => (λ xy : Z * Z, (inject_Z xy.1, inject_Z xy.2))
                   <$> findFreePosition fuel (existingPositions st) 200 200
       end;
  let newBlock :=
    {| block_id := uuid;
       block_type := blockType;
       name := block_name blockType;
       parameters := getDefaultParameters blockType;
       position := Position.mk xy.1 xy.2 |} in
  Some (setBlocks (λ prev, prev ++ [newBlock]) st,
        [toast_success ("Added " +:+ name newBlock +:+ " block")]).

End AddBlock.

(** [startConnection] *)
Definition startConnection (blockId : string) (st : state) : state * list toast :=
  (setIsConnecting true (setConnectingFrom (Some blockId) st),
   [toast_plain "Click on another block to connect"]).

(** [cancelConnection] *)
Definition cancelConnection (st : state) : state * list toast :=
  (setIsConnecting false (setConnectingFrom None st), []).

(** [finishConnection] *)
Definition finishConnection (targetId : string) (uuid : string) (st : state)
  : state * list toast :=
  if negb (truthy_string (connectingFrom st)) || negb (isConnecting st) then (st, [])
  else
    let source := default "" (connectingFrom st) in
    let existingConnection := list_find (same_pair source targetId) (connections st) in
    if existingConnection is Some _ then
      (setIsConnecting false (setConnectingFrom None st),
       [toast_error "Connection already exists"])
    else if decide (source = targetId) then
      (setIsConnecting false (setConnectingFrom None st),
       [toast_error "Cannot connect block to itself"])
    else
      let newConnection :=
        {| connection_id := uuid; source_block_id := source;
           target_block_id := targetId |} in
      (setIsConnecting false (setConnectingFrom None
         (setConnections (λ prev, prev ++ [newConnection]) st)),
       [toast_success "Blocks connected"]).

End WorkflowBuilder.

(** [getDefaultParameters] of the drag-and-drop revisions ([part_001] and
    [part_003] have the same text). *)
Module Part001.

Definition getDefaultParameters (blockType : string) : gmap string jsval :=
  if String.eqb blockType "read_csv" then
    {[ "file_path" := JStr "sample_data.csv"; "delimiter" := JStr ",";
       "encoding" := JStr "utf-8"; "skip_rows" := JNum 0 ]}
  else if String.eqb blockType "save_csv" then
    {[ "file_path" := JStr ""; "delimiter" := JStr ",";
       "encoding" := JStr "utf-8"; "index" := JBool false ]}
  else if String.eqb blockType "filter" then
    {[ "condition" := JStr "df['company'].str.contains('Ariglad', na=False)" ]}
  else if String.eqb blockType "enrich_lead" then
    {[ "struct" := JObj [("name", JStr "Full name");
                         ("email", JStr "Email address");
                         ("company", JStr "Company name");
                         ("title", JStr "Job title");
                         ("linkedin", JStr "LinkedIn URL");
                         ("education", JStr "Educational background including university")];
       "batch_size" := JNum 10;
       "timeout" := JNum 30 ]}
  else if String.eqb blockType "find_email" then
    {[ "batch_size" := JNum 10; "timeout" := JNum 30 ]}
  else ∅.

Definition addBlock := WorkflowBuilder.addBlock getDefaultParameters.

End Part001.

(** [addBlock] of the first revision ([part_003]), which places the block at
    random: [random_x] and [random_y] are the two values of [Math.random()].
    Its [getDefaultParameters] has the text of [part_001]. *)
Module Part003.

Import WorkflowBuilder.

Definition getDefaultParameters := Part001.getDefaultParameters.

Definition addBlock (blockType : string) (random_x random_y : Q) (uuid : string)
    (st : state) : state * list toast :=
  let newBlock :=
    {| block_id := uuid;
       block_type := blockType;
       name := block_name blockType;
       parameters := getDefaultParameters blockType;
       position := Position.mk (random_x * 400) (random_y * 200) |} in
  (setBlocks (λ prev, prev ++ [newBlock]) st,
   [toast_success ("Added " +:+ name newBlock +:+ " block")]).

End Part003.

(** [getDefaultParameters] of the click-to-connect revision ([part_002]). *)
Module Part002.

Definition getDefaultParameters (blockType : string) : gmap string jsval :=
  if String.eqb blockType "read_csv" then
    {[ "file_path" := JStr "sample_data.csv"; "delimiter" := JStr ",";
       "encoding" := JStr "utf-8"; "skip_rows" := JNum 0 ]}
  else if String.eqb blockType "save_csv" then
    {[ "file_path" := JStr ""; "delimiter" := JStr ",";
       "encoding" := JStr "utf-8"; "index" := JBool false ]}
  else if String.eqb blockType "filter" then
    {[ "condition" := JStr "df['company'].str.contains('Ariglad Inc', na=False)" ]}
  else if String.eqb blockType "enrich_lead" then
    {[ "struct" := JObj [("name", JStr "The individual's full name");
                         ("email", JStr "The individual's email address");
                         ("phone", JStr "The individual's phone number");
                         ("company", JStr "The company the individual is associated with");
                         ("title", JStr "The individual's job title");
                         ("linkedin", JStr "LinkedIn URL for the person");
                         ("website", JStr "Company website URL");
                         ("location", JStr "The individual's location and/or company location");
                         ("industry", JStr "Industry the person operates in");
                         ("github_url", JStr "URL for their GitHub profile");
                         ("github_notes", JStr "Take detailed notes on their GitHub profile.")];
       "batch_size" := JNum 10 ]}
  else if String.eqb blockType "find_email" then
    {[ "batch_size" := JNum 10; "bruteforce" := JBool true;
       "only_company_emails" := JBool false ]}
  else ∅.

Definition addBlock := WorkflowBuilder.addBlock getDefaultParameters.

End Part002.

(** ** Sequences of handler calls

    Any handler of the builder, called with any arguments, in any order,
    starting from the initial state of the component. *)

Module Calls.

Import WorkflowBuilder.

Inductive call : Type :=
  | call_addBlock (fuel : nat) (blockType : string) (position : option Position.t)
      (uuid : string)
  | call_removeBlock (blockId : string)
  | call_updateBlock (blockId : string) (updates : PartialBlockConfig)
  | call_connectBlocks (sourceId targetId uuid : string)
  | call_removeConnection (connectionId : string)
  | call_startConnection (blockId : string)
  | call_finishConnection (targetId uuid : string)
  | call_cancelConnection.

Definition apply (st : state) (c : call) : state :=
  match c with
  | call_addBlock fuel blockType position uuid =>
      default st (fst <$> Part002.addBlock fuel blockType position uuid st)
  | call_removeBlock blockId => (removeBlock blockId st).1
  | call_updateBlock blockId updates => (updateBlock blockId updates st).1
  | call_connectBlocks sourceId targetId uuid => (connectBlocks sourceId targetId uuid st).1
  | call_removeConnection connectionId => (removeConnection connectionId st).1
  | call_startConnection blockId => (startConnection blockId st).1
  | call_finishConnection targetId uuid => (finishConnection targetId uuid st).1
  | call_cancelConnection => (cancelConnection st).1
  end.

Definition run (cs : list call) : state := foldl apply initial cs.

End Calls.

(** ** The graph of a connection list *)

Module Graph.

(** A directed path of one or more connections. *)
Inductive path (conns : list WorkflowConnection) : string → string → Prop :=
  | path_edge conn :
      conn ∈ conns → path conns (source_block_id conn) (target_block_id conn)
  | path_step conn b :
      conn ∈ conns → path conns (target_block_id conn) b →
      path conns (source_block_id conn) b.

Definition acyclic (conns : list WorkflowConnection) : Prop :=
  ∀ b, ¬ path conns b b.

(** The connection from [sourceId] to [targetId] would close a cycle. *)
Definition closes_cycle (conns : list WorkflowConnection) (sourceId targetId : string) : Prop :=
  sourceId = targetId ∨ path conns targetId sourceId.

Definition pair_of (conn : WorkflowConnection) : string * string :=
  (source_block_id conn, target_block_id conn).

Definition no_self_loop (conns : list WorkflowConnection) : Prop :=
  ∀ conn, conn ∈ conns → source_block_id conn ≠ target_block_id conn.

Definition no_duplicate_pair (conns : list WorkflowConnection) : Prop :=
  NoDup (pair_of <$> conns).

(** Every connection joins two blocks of the state. *)
Definition references_blocks (blocks : list BlockConfig) (conns : list WorkflowConnection) : Prop :=
  ∀ conn, conn ∈ conns →
    source_block_id conn ∈ block_id <$> blocks ∧ target_block_id conn ∈ block_id <$> blocks.

Definition well_connected (conns : list WorkflowConnection) : Prop :=
  no_self_loop conns ∧ no_duplicate_pair conns.

End Graph.

(** ** The canvas of the click-to-connect revision

    What a user can do on the canvas of [part_002], whose blocks are rendered
    by the [BlockComponent] of [part_004]: every handler is reached through
    an element that is rendered, and enabled, in the current state only. *)

Module Canvas.

Import WorkflowBuilder.

Inductive ui_event : Type :=
  | palette_click (blockType uuid : string)
  | palette_drop (blockType : string) (at_position : Position.t) (uuid : string)
  | block_click (blockId uuid : string)
  | connect_button (blockId : string)
  | remove_button (blockId : string)
  | connection_point (blockId uuid : string)
  | canvas_click
  | connection_line_click (connectionId : string)
  | mouse_move (blockId : string) (to : Position.t)
  | parameters_saved (blockId : string) (parameters : gmap string jsval).

(** [blocks.map((block) => <BlockComponent ... />)]: a block component
    exists for the blocks of the state only. *)
Definition rendered (blockId : string) (st : state) : Prop :=
  blockId ∈ block_id <$> blocks st.

#[global] Instance rendered_dec blockId st : Decision (rendered blockId st).
Proof. unfold rendered. apply _. Defined.

(** [canBeTarget={isConnecting && connectingFrom !== block.block_id}] *)
Definition canBeTarget (st : state) (blockId : string) : bool :=
  isConnecting st && bool_decide (connectingFrom st ≠ Some blockId).

(** The bound on the free-position search that [addBlock] is run with. *)
Definition search_fuel (st : state) : nat := 6 * length (blocks st) + 1.

Definition on_block (blockId : string) (ev : ui_event) (st : state) : state :=
  match ev with
  | block_click _ uuid =>
      (* handleClick *)
      if isConnecting st && canBeTarget st blockId
      then (finishConnection blockId uuid st).1 else st
  | connect_button _ =>
      (* rendered under [isHovered && !isConnecting] *)
      if isConnecting st then st else (startConnection blockId st).1
  | remove_button _ =>
      (* rendered under [isHovered && !isConnecting] *)
      if isConnecting st then st else (removeBlock blockId st).1
  | connection_point _ uuid =>
      if isConnecting st && canBeTarget st blockId
      then (finishConnection blockId uuid st).1
      else if negb (isConnecting st) then (startConnection blockId st).1
      else st
  | _ => st
  end.

Definition ui_step (st : state) (ev : ui_event) : state :=
  match ev with
  | palette_click blockType uuid =>
      default st (fst <$> Part002.addBlock (search_fuel st) blockType None uuid st)
  | palette_drop blockType p uuid =>
      default st (fst <$> Part002.addBlock (search_fuel st) blockType (Some p) uuid st)
  | block_click blockId _ | connect_button blockId | remove_button blockId
  | connection_point blockId _ =>
      if decide (rendered blockId st) then on_block blockId ev st else st
  | canvas_click =>
      (* onClick={isConnecting ? cancelConnection : undefined} *)
      if isConnecting st then (cancelConnection st).1 else st
  | connection_line_click connectionId => (removeConnection connectionId st).1
  | mouse_move blockId to =>
      (updateBlock blockId
         {| upd_block_id := None; upd_block_type := None; upd_name := None;
            upd_parameters := None; upd_position := Some to |} st).1
  | parameters_saved blockId parameters =>
      (updateBlock blockId
         {| upd_block_id := None; upd_block_type := None; upd_name := None;
            upd_parameters := Some parameters; upd_position := None |} st).1
  end.

Definition ui_run (evs : list ui_event) : state := foldl ui_step initial evs.

Definition block_ids (st : state) : list string := block_id <$> blocks st.

(** What holds of every state the canvas can reach: connections join
    existing blocks, and a connection in progress starts at an existing
    block. *)
Definition canvas_inv (st : state) : Prop :=
  Graph.references_blocks (blocks st) (connections st)
  ∧ (isConnecting st = true → ∃ b, connectingFrom st = Some b ∧ b ∈ block_ids st).

End Canvas.

(** ** components/ResultsPanel.tsx *)

Module ResultsPanel.

(** [useState<'table' | 'json'>('table')] *)
Inductive viewMode : Type := table | json.

(** What [renderDataPreview] returns: nothing, one of the two [<pre>] blocks
    with the JSON text of the data, or the table with its header cells, its
    body rows of cell texts and the optional line under it.  [r_throw] is a
    [TypeError] raised while rendering. *)
Inductive rendered : Type :=
  | r_null
  | r_json_view (data : jsval)
  | r_table (columns : list string) (rows : list (list string)) (footer : option string)
  | r_json_fallback (data : jsval)
  | r_throw.

(** [const maxRows = 10] *)
Definition maxRows : nat := 10.

Section Render.

(** [String(v)], and reading a property of a value that is neither an object
    literal nor [null]/[undefined] (an array, a string, a number, a boolean):
    built-ins of the language, left abstract. *)
Variable String_ : jsval → string.
Variable builtin_property : jsval → string → jsval.

(** An array index among the keys of an object: the canonical decimal text
    of an integer below 2^32 - 1. *)
Definition array_index (key : string) : option N :=
  n ← N.of_uint <$> NilZero.uint_of_string key;
  if decide (pretty n = key ∧ (n < 2 ^ 32 - 1)%N) then Some n else None.

(** The order in which the language lists the own keys of an object: the
    array indices in ascending order, then the other keys in insertion
    order. *)
Definition own_keys (keys : list string) : list string :=
  (pretty <$> merge_sort N.le (omap array_index keys))
  ++ filter (λ key, array_index key = None) keys.

(** [Object.keys(v)] for a value with [typeof v === 'object']; [None] is the
    [TypeError] on [null]. *)
Definition Object_keys (v : jsval) : option (list string) :=
  match v with
  | JObj fields => Some (own_keys fields.*1)
  | JArr elems => Some (pretty <$> seq 0 (length elems))
  | JNull | JUndefined => None
  | _ => Some []
  end.

(** [row[column]]; [None] is the [TypeError] on [null] and [undefined]. *)
Definition get_property (row : jsval) (column : string) : option jsval :=
  match row with
  | JNull | JUndefined => None
  | JObj fields => Some (default JUndefined
        ((λ found : nat * (string * jsval), found.2.2)
           <$> list_find (λ kv, kv.1 = column) fields))
  | _ => Some (builtin_property row column)
  end.

(** [String(row[column] || '')] *)
Definition cell (row : jsval) (column : string) : option string :=
  v ← get_property row column;
  Some (String_ (if truthy v then v else JStr "")).

Definition renderDataPreview (mode : viewMode) (data : jsval) : rendered :=
  if negb (truthy data) then r_null
  else match mode with
  | json => r_json_view data
  | table =>
      match data with
      | JArr ((first :: _) as rows) =>
          if typeof_object first then
            match Object_keys first with
            | None => r_throw
            | Some columns =>
                match mapM (λ row, mapM (cell row) columns) (take maxRows rows) with
                | None => r_throw
                | Some body =>
                    r_table columns body
                      (if decide (maxRows < length rows)
                       then Some ("Showing " +:+ pretty maxRows +:+ " of "
                                  +:+ pretty (length rows) +:+ " rows")
                       else None)
                end
            end
          else r_json_fallback data
      | _ => r_json_fallback data
      end
  end.

End Render.


End ResultsPanel.

(** ** components/JobMonitor.tsx *)

Module JobMonitor.

(** The fields of [Job] the header of the details pane reads. *)
Record Job : Type := mkJob {
  job_id : string;
  status : JobStatus;
}.

(** A request the component sends: [jobsApi.cancelJob(jobId)], issued by
    [handleCancelJob]. *)
Inductive request : Type :=
  | cancelJob (jobId : string).

(** The click handlers of the job header: the "Cancel Job" button is rendered
    under [selectedJob.status === 'running'] only, inside the pane that is
    rendered for a non-null [selectedJob]. *)
Definition header_buttons (selectedJob : option Job) : list request :=
  match selectedJob with
  | Some job => if decide (status job = running) then [cancelJob (job_id job)] else []
  | None => []
  end.

End JobMonitor.

(** ** The execution engine

    The engine itself (graph validator, block executors, enrichment client,
    pipeline scheduler, job controller) is the Python back end, whose code
    is missing here; the front end only declares its types and calls its
    HTTP interface.  Its definitions below follow the design document.  A
    table is an ordered sequence of rows and a row maps column names to one
    value per cell: [list (gmap string jsval)]. *)

Module Engine.

(** Modelled from the spec: the error taxonomy of sections 4 and 7 (the back
    end's exceptions are missing). *)
Inductive BlockError : Type :=
  | SourceReadError
  | MalformedPredicateError
  | MissingInputError
  | StoreExhaustedError
  | GraphValidationError
  | CircuitOpenError.

(** Modelled from the spec: the typed failure of one enrichment request
    (section 6) and the per-record outcome of section 4.3. *)
Inductive Failure : Type :=
  | AuthError | RateLimited | Timeout | MalformedResponse | ServiceUnavailableError.

(** Modelled from the spec: the outcome of one record (section 4.3): the
    enriched fields or a per-record error entry. *)
Inductive outcome : Type :=
  | Enriched (fields : gmap string jsval)
  | Failed (why : Failure).

(** Modelled from the spec: what the Enrichment Client has for one record
    once its retry policy is through (sections 4.3 and 7): the outcome of the
    record, where exhausted retries are a per-record failure, or no outcome
    because the circuit breaker remained open past the maximum wait, which
    section 7 escalates to a block-fatal error. *)
Inductive reply : Type :=
  | Settled (o : outcome)
  | BreakerOpenPastMaxWait.

(** Modelled from the spec: the outcome of a record, if the client has
    one. *)
Definition settled (r : reply) : option outcome :=
  match r with
  | Settled o => Some o
  | BreakerOpenPastMaxWait => None
  end.

(** Modelled from the spec: the request of section 6, a record payload and a
    target-field schema; the aggressive-search toggle of find-contact affects
    request parameters only. *)
Record request : Type := mkRequest {
  payload : gmap string jsval;
  schema : list string;
  aggressive : bool;
}.

(** Modelled from the spec: the capability of section 4.4,
    [execute(inputTable?, config) -> outputTable (or none), rowsIn, rowsOut]. *)
Record Executed : Type := mkExecuted {
  output : option (list (gmap string jsval));
  rowsIn : nat;
  rowsOut : nat;
}.

(** Modelled from the spec: the configuration of an enrich-record or
    find-contact block as the variant struct of section 9: the selected
    columns, the target field schema and the batch size, a positive number of
    concurrent in-flight requests. *)
Record EnrichConfig : Type := mkEnrichConfig {
  selected_columns : list string;
  target_fields : list string;
  batchSize : positive;
  aggressive_search : bool;
}.

(** Modelled from the spec: the block kinds of section 3 with their
    kind-specific configuration (tagged union of section 9). *)
Inductive BlockSpec : Type :=
  | load_table (file : string)
  | filter_rows (predicate : string)
  | enrich_record (cfg : EnrichConfig)
  | find_contact (cfg : EnrichConfig)
  | persist_table (file : option string).

(** Modelled from the spec: a block of the execution plan (section 4.1):
    its id, its kind and configuration, and the block whose table it
    consumes, if any. *)
Record Block : Type := mkBlock {
  id : string;
  spec : BlockSpec;
  input_from : option string;
}.

(** Modelled from the spec: the BlockResult of section 3, without the
    wall-clock duration. *)
Record BlockResult : Type := mkBlockResult {
  result_block : string;
  result_kind : BlockSpec;
  success : bool;
  rows_consumed : nat;
  rows_produced : nat;
  preview : option (list (gmap string jsval));
  error : option BlockError;
}.

(** Modelled from the spec: the Job of section 3, reduced to the status, the
    blocks of the execution plan that have not been started, the result
    sequence, the tables of the value store, the pending cancellation request
    and the error message. *)
Record Job : Type := mkJob {
  status : JobStatus;
  plan : list Block;
  results : list BlockResult;
  store : gmap string (list (gmap string jsval));
  cancel_requested : bool;
  error_message : option BlockError;
}.

(** Modelled from the spec: what reaches the Job Controller (section 4.5):
    the execution request, the scheduler arriving at the boundary between two
    blocks, and an explicit cancellation request. *)
Inductive event : Type :=
  | ExecutionRequest
  | BlockBoundary
  | CancellationRequest.

(** Modelled from the spec: the default batch size of the Enrichment Client
    (section 4.3, "batches of batchSize (default 10)"). *)
Definition default_batchSize : Z := 10.

(** Modelled from the spec: the partition of the records into batches of
    [batchSize] records (section 4.3). *)
Fixpoint batches_go {A : Type} (fuel : nat) (size : nat) (records : list A) : list (list A) :=
  match fuel, records with
  | O, _ | _, [] => []
  | S fuel, _ => take size records :: batches_go fuel size (drop size records)
  end.

(** Modelled from the spec: the batches of a record list (section 4.3). *)
Definition batches {A : Type} (size : positive) (records : list A) : list (list A) :=
  batches_go (length records) (Pos.to_nat size) records.

Section Executors.

(** The external collaborators of section 6: the enrichment service (one
    call, after the client's retry policy), reading a tabular file, decoding
    the predicate of a filter block ([None] for a malformed predicate; a
    decoded predicate may fail on a row, [None]), validating the graph.
    [error_column] names the error marker column and [preview_rows] bounds
    the row sample of a BlockResult. *)
Variable service : request → reply.
Variable read_source : string → BlockError + list (gmap string jsval).
Variable parse_predicate : string → option (gmap string jsval → option bool).
Variable validate : list Block → option BlockError.
Variable error_column : string.
Variable failure_text : Failure → string.
Variable preview_rows : nat.

(** Modelled from the spec: the filter executor of section 4.4: the rows
    satisfying the predicate; a row on which the predicate cannot be
    evaluated does not match; a malformed predicate is a block-fatal error. *)
Definition execute_filter (predicate : string) (input : list (gmap string jsval))
  : BlockError + Executed :=
  match parse_predicate predicate with
  | None => inl MalformedPredicateError
  | Some p =>
      let out := filter (λ row, p row = Some true) input in
      inr {| output := Some out; rowsIn := length input; rowsOut := length out |}
  end.

(** Modelled from the spec: the call for one record: its outcome, success
    or failure, paired with the record (section 4.3), unless the circuit
    breaker remained open past the maximum wait. *)
Definition enrich_one (fields : list string) (aggressive : bool)
    (record : gmap string jsval) : option (gmap string jsval * outcome) :=
  (λ o, (record, o)) <$> settled (service (mkRequest record fields aggressive)).

(** Modelled from the spec: [enrichBatch(records, schema, batchSize)] of
    section 4.3: the records go out batch by batch, every record of a batch
    is an independent call, and the outcomes come back in the order of the
    records.  [None] is the one failure that is not per-record: the circuit
    breaker remained open past the maximum wait (section 7). *)
Definition enrichBatch (records : list (gmap string jsval)) (fields : list string)
    (aggressive : bool) (size : positive)
  : option (list (gmap string jsval * outcome)) :=
  mjoin <$> mapM (mapM (enrich_one fields aggressive)) (batches size records).

(** Modelled from the spec: the record built from the selected columns of a
    row, and the row after its outcome came back: returned fields are merged
    into the row, a failure adds the error marker column. *)
Definition record_of (selected : list string) (row : gmap string jsval) : gmap string jsval :=
  filter (λ kv, kv.1 ∈ selected) row.

(** Modelled from the spec: merging an outcome back into its row (section
    4.4). *)
Definition merge_outcome (row : gmap string jsval) (o : outcome) : gmap string jsval :=
  match o with
  | Enriched fields => fields ∪ row
  | Failed why => <[error_column := JStr (failure_text why)]> row
  end.

(** Modelled from the spec: the enrich-record executor of section 4.4;
    find-contact is "structurally identical" and differs in the schema and
    the aggressive-search toggle it sends.  Per-record failures are row-level
    and leave the block successful; a circuit breaker that remained open
    past the maximum wait is block-fatal (sections 4.5 and 7). *)
Definition execute_enrich (cfg : EnrichConfig) (aggressive : bool)
    (input : list (gmap string jsval)) : BlockError + Executed :=
  let records := record_of (selected_columns cfg) <$> input in
  match enrichBatch records (target_fields cfg) aggressive (batchSize cfg) with
  | None => inl CircuitOpenError
  | Some outcomes =>
      let out := zip_with merge_outcome input (outcomes.*2) in
      inr {| output := Some out; rowsIn := length input; rowsOut := length out |}
  end.

(** Modelled from the spec: enrich-record never searches aggressively. *)
Definition execute_enrich_record (cfg : EnrichConfig) := execute_enrich cfg false.

(** Modelled from the spec: find-contact sends its aggressive-search toggle. *)
Definition execute_find_contact (cfg : EnrichConfig) := execute_enrich cfg (aggressive_search cfg).

(** Modelled from the spec: the dispatch of section 4.4 on the block kind;
    blocks with one input fail without it. *)
Definition execute (b : BlockSpec) (input : option (list (gmap string jsval)))
  : BlockError + Executed :=
  match b, input with
  | load_table file, _ =>
      match read_source file with
      | inl e => inl e
      | inr t => inr {| output := Some t; rowsIn := length t; rowsOut := length t |}
      end
  | _, None => inl MissingInputError
  | filter_rows predicate, Some t => execute_filter predicate t
  | enrich_record cfg, Some t => execute_enrich_record cfg t
  | find_contact cfg, Some t => execute_find_contact cfg t
  | persist_table _, Some t => inr {| output := None; rowsIn := length t; rowsOut := length t |}
  end.

(** Modelled from the spec: a status change of the job controller. *)
Definition set_status (s : JobStatus) (job : Job) : Job :=
  {| status := s; plan := plan job; results := results job; store := store job;
     cancel_requested := cancel_requested job; error_message := error_message job |}.

(** Modelled from the spec: running the next queued block at a block
    boundary: the block leaves the queue, its BlockResult is appended, a table
    it produced goes to the store under its id; a fatal error fails the job. *)
Definition run_block (b : Block) (rest : list Block) (job : Job) : Job :=
  match execute (spec b) (input_from b ≫= λ src, store job !! src) with
  | inl e =>
      {| status := failed; plan := rest;
         results := results job ++
           [{| result_block := id b; result_kind := spec b; success := false;
               rows_consumed := 0; rows_produced := 0; preview := None;
               error := Some e |}];
         store := store job; cancel_requested := cancel_requested job;
         error_message := Some e |}
  | inr ex =>
      {| status := running; plan := rest;
         results := results job ++
           [{| result_block := id b; result_kind := spec b; success := true;
               rows_consumed := rowsIn ex; rows_produced := rowsOut ex;
               preview := take preview_rows <$> output ex; error := None |}];
         store := match output ex with
                  | Some t => <[id b := t]> (store job)
                  | None => store job
                  end;
         cancel_requested := cancel_requested job;
         error_message := error_message job |}
  end.

(** Modelled from the spec: the state machine of section 4.5.  A validation
    error keeps the job in [pending]; a cancellation request is recorded and
    observed at the next block boundary; a terminal job is never mutated. *)
Definition step (job : Job) (ev : event) : Job :=
  match status job, ev with
  | pending, ExecutionRequest =>
      match validate (plan job) with
      | Some e =>
          {| status := pending; plan := plan job; results := results job;
             store := store job; cancel_requested := cancel_requested job;
             error_message := Some e |}
      | None => set_status running job
      end
  | running, CancellationRequest =>
      {| status := running; plan := plan job; results := results job;
         store := store job; cancel_requested := true;
         error_message := error_message job |}
  | running, BlockBoundary =>
      if cancel_requested job then set_status cancelled job
      else match plan job with
           | [] => set_status completed job
           | b :: rest => run_block b rest job
           end
  | _, _ => job
  end.

(** Modelled from the spec: the job after a sequence of events. *)
Definition run (job : Job) (evs : list event) : Job := foldl step job evs.

(** Modelled from the spec: [submitJob]: a job is created in [pending]. *)
Definition submitJob (blocks : list Block) : Job :=
  {| status := pending; plan := blocks; results := []; store := ∅;
     cancel_requested := false; error_message := None |}.

End Executors.

(** Modelled from the spec: the transitions and the terminal states of
    section 4.5 (the job controller is missing). *)
Inductive transition : JobStatus → JobStatus → Prop :=
  | t_start : transition pending running
  | t_complete : transition running completed
  | t_fail : transition running failed
  | t_cancel : transition running cancelled.

Definition terminal (s : JobStatus) : Prop :=
  s = completed ∨ s = failed ∨ s = cancelled.

(** Modelled from the spec: a job whose cancellation was requested while it
    was [job]: running with the request recorded, or cancelled, with the
    results, the queue and the tables that [job] had. *)
Definition frozen_as (job job' : Job) : Prop :=
  results job' = results job ∧ plan job' = plan job ∧ store job' = store job
  ∧ ((status job' = running ∧ cancel_requested job' = true) ∨ status job' = cancelled).

End Engine.

(** ** A scenario for the engine

    Stubs for the external collaborators and a four-block chain
    (load, filter, enrich, persist) on which the engine can be run. *)

Module Scenario.

Import Engine.

Definition leads : list (gmap string jsval) :=
  [ {[ "name" := JStr "Ada"; "company" := JStr "Acme" ]};
    {[ "name" := JStr "Bob"; "company" := JStr "Initech" ]};
    {[ "company" := JStr "Acme" ]};
    {[ "name" := JStr "Eve" ]} ].

Definition read_leads (file : string) : BlockError + list (gmap string jsval) :=
  if String.eqb file "leads.csv" then inr leads else inl SourceReadError.

(** The enrichment stub knows the title of everybody who has a name. *)
Definition stub_service (req : request) : reply :=
  if decide (is_Some (payload req !! "name"))
  then Settled (Enriched {[ "title" := JStr "CTO" ]})
  else Settled (Failed Timeout).

(** One predicate is understood; it cannot be evaluated on a row without a
    [company] column. *)
Definition decode (predicate : string) : option (gmap string jsval → option bool) :=
  if String.eqb predicate "company == 'Acme'"
  then Some (λ row, match row !! "company" with
                    | Some (JStr c) => Some (String.eqb c "Acme")
                    | Some _ => Some false
                    | None => None
                    end)
  else None.

Definition enrich_cfg : EnrichConfig :=
  {| selected_columns := ["name"; "company"]; target_fields := ["email"; "title"];
     batchSize := 10; aggressive_search := false |}.

Definition chain : list Block :=
  [ mkBlock "b1" (load_table "leads.csv") None;
    mkBlock "b2" (filter_rows "company == 'Acme'") (Some "b1");
    mkBlock "b3" (enrich_record enrich_cfg) (Some "b2");
    mkBlock "b4" (persist_table None) (Some "b3") ].

Definition step : Job → event → Job :=
  Engine.step stub_service read_leads decode (λ _, None) "error"
    (λ _, "enrichment failed") 5.

Definition run : Job → list event → Job :=
  Engine.run stub_service read_leads decode (λ _, None) "error"
    (λ _, "enrichment failed") 5.

(** Row counts of the results of a job, in execution order. *)
Definition row_counts (job : Job) : list (nat * nat) :=
  (λ r, (rows_consumed r, rows_produced r)) <$> results job.

End Scenario.

(** ** Dragging a block ([handleMouseDown]) *)

Module Drag.

Import WorkflowBuilder.

(** The fields of [getBoundingClientRect()] and of a mouse event that the
    drag handlers read. *)
Record DOMRect : Type := mkRect { left : Q; top : Q; width : Q; height : Q }.

Record MouseEvent : Type := mkMouse { clientX : Q; clientY : Q }.

(** [handleGlobalMouseMove], the listener [handleMouseDown] registers on the
    document: it closes over [rect], [dragOffset] and [blockId]. *)
Definition handleGlobalMouseMove (rect : DOMRect) (dragOffset : Position.t)
    (blockId : string) (e : MouseEvent) (st : state) : state * list toast :=
  let newX := (clientX e - left rect - Position.x dragOffset)%Q in
  let newY := (clientY e - top rect - Position.y dragOffset)%Q in
  let constrainedX := Qmax 100 (Qmin (width rect - 100) newX) in
  let constrainedY := Qmax 60 (Qmin (height rect - 60) newY) in
  updateBlock blockId
    {| upd_block_id := None; upd_block_type := None; upd_name := None;
       upd_parameters := None;
       upd_position := Some (Position.mk constrainedX constrainedY) |} st.

(** [handleMouseDown]: nothing happens without the block or without the
    canvas rectangle ([workflowCanvasRef.current] may be null); otherwise the
    new value of [dragOffset] and the registered listener, which still reads
    the [dragOffset] of the render the handler was created in. *)
Definition handleMouseDown (blockId : string) (event : MouseEvent)
    (rect : option DOMRect) (dragOffset : Position.t) (st : state)
  : option (Position.t * (MouseEvent → state → state * list toast)) :=
  found ← list_find (λ b, block_id b = blockId) (blocks st);
  rect ← rect;
  let block := found.2 in
  Some (Position.mk (clientX event - left rect - Position.x (position block))
                    (clientY event - top rect - Position.y (position block)),
        handleGlobalMouseMove rect dragOffset blockId).

End Drag.

(** ** Saving and executing the workflow ([saveWorkflow], [executeWorkflow])

    The calls to [workflowApi] are recorded; what an awaited call settles to
    is an argument of the handler: the value read from the response, or the
    [error.response?.data?.detail] of the rejection. *)

Module Persistence.

Import WorkflowBuilder.

(** [Omit<Workflow, 'workflow_id' | 'created_at' | 'updated_at'>] *)
Record payload : Type := mkPayload {
  p_name : string;
  p_description : string;
  p_blocks : list BlockConfig;
  p_connections : list WorkflowConnection;
}.

Inductive api_call : Type :=
  | createWorkflow (workflow : payload)
  | updateWorkflow (workflowId : string) (workflow : payload)
  | executeWorkflow_call (workflowId : string).

(** A settled promise: rejected with an error whose [response.data.detail]
    may be missing, or resolved. *)
Inductive settled (A : Type) : Type :=
  | rejected (detail : option string)
  | resolved (value : A).
Arguments rejected {A}.
Arguments resolved {A}.

(** The [useState] cells of the builder that the two handlers use besides
    [blocks] and [connections]. *)
Record cells : Type := mkCells {
  workflowName : string;
  isExecuting : bool;
  isSaving : bool;
  savedWorkflowId : option string;
}.

Definition initial_cells : cells :=
  {| workflowName := "My Workflow"; isExecuting := false; isSaving := false;
     savedWorkflowId := None |}.

(** What a handler did: the cells afterwards, the toasts, the API calls in
    order, and the job ids passed to [onJobCreated]. *)
Record effect : Type := mkEffect {
  after : cells;
  toasts : list toast;
  calls : list api_call;
  jobs_created : list string;
}.

Definition workflow_of (st : state) (c : cells) : payload :=
  {| p_name := workflowName c;
     p_description := "Workflow with " +:+ pretty (length (blocks st)) +:+ " blocks";
     p_blocks := blocks st;
     p_connections := connections st |}.

(** [error.response?.data?.detail || fallback] *)
Definition detail_or (detail : option string) (fallback : string) : string :=
  if truthy_string detail then default "" detail else fallback.

Definition set_isSaving (v : bool) (c : cells) : cells :=
  {| workflowName := workflowName c; isExecuting := isExecuting c; isSaving := v;
     savedWorkflowId := savedWorkflowId c |}.

Definition set_isExecuting (v : bool) (c : cells) : cells :=
  {| workflowName := workflowName c; isExecuting := v; isSaving := isSaving c;
     savedWorkflowId := savedWorkflowId c |}.

Definition set_savedWorkflowId (v : option string) (c : cells) : cells :=
  {| workflowName := workflowName c; isExecuting := isExecuting c;
     isSaving := isSaving c; savedWorkflowId := v |}.

(** [saveWorkflow]; [response] is what the one API call settles to, with the
    [workflow_id] of the returned workflow. *)
Definition saveWorkflow (st : state) (c : cells) (response : settled string) : effect :=
  if decide (length (blocks st) = 0) then
    {| after := c; toasts := [toast_error "Add at least one block to save workflow"];
       calls := []; jobs_created := [] |}
  else
    let workflow := workflow_of st c in
    if truthy_string (savedWorkflowId c) then
      let call := updateWorkflow (default "" (savedWorkflowId c)) workflow in
      match response with
      | resolved _ =>
          {| after := set_isSaving false c;
             toasts := [toast_success "Workflow updated successfully"];
             calls := [call]; jobs_created := [] |}
      | rejected detail =>
          {| after := set_isSaving false c;
             toasts := [toast_error (detail_or detail "Failed to save workflow")];
             calls := [call]; jobs_created := [] |}
      end
    else
      let call := createWorkflow workflow in
      match response with
      | resolved workflow_id =>
          {| after := set_isSaving false (set_savedWorkflowId (Some workflow_id) c);
             toasts := [toast_success "Workflow saved successfully"];
             calls := [call]; jobs_created := [] |}
      | rejected detail =>
          {| after := set_isSaving false c;
             toasts := [toast_error (detail_or detail "Failed to save workflow")];
             calls := [call]; jobs_created := [] |}
      end.

(** [executeWorkflow]; [created] is what [createWorkflow] settles to (the
    [workflow_id]) and [executed] what [executeWorkflow] settles to (the
    [job_id]); the second call is made only after the first resolved. *)
Definition executeWorkflow (st : state) (c : cells)
    (created : settled string) (executed : settled string) : effect :=
  if decide (length (blocks st) = 0) then
    {| after := c; toasts := [toast_error "Add at least one block to execute workflow"];
       calls := []; jobs_created := [] |}
  else
    let workflow := workflow_of st c in
    match created with
    | rejected detail =>
        {| after := set_isExecuting false c;
           toasts := [toast_error (detail_or detail "Failed to execute workflow")];
           calls := [createWorkflow workflow]; jobs_created := [] |}
    | resolved workflow_id =>
        match executed with
        | rejected detail =>
            {| after := set_isExecuting false c;
               toasts := [toast_success "Workflow created successfully";
                          toast_error (detail_or detail "Failed to execute workflow")];
               calls := [createWorkflow workflow; executeWorkflow_call workflow_id];
               jobs_created := [] |}
        | resolved job_id =>
            {| after := set_isExecuting false c;
               toasts := [toast_success "Workflow created successfully";
                          toast_success "Workflow execution started"];
               calls := [createWorkflow workflow; executeWorkflow_call workflow_id];
               jobs_created := [job_id] |}
        end
    end.

(** A session of the two buttons: each press with what its calls settle to. *)
Inductive press : Type :=
  | press_save (response : settled string)
  | press_execute (created executed : settled string).

Definition press_effect (st : state) (c : cells) (p : press) : effect :=
  match p with
  | press_save response => saveWorkflow st c response
  | press_execute created executed => executeWorkflow st c created executed
  end.

(** The cells and the API calls after a series of presses on a fixed graph. *)
Definition presses (st : state) (c : cells) (ps : list press) : cells * list api_call :=
  foldl (λ acc p, let e := press_effect st acc.1 p in (after e, acc.2 ++ calls e))
        (c, []) ps.

End Persistence.

(** ** The lines between connected blocks (canvas of [part_002]) *)

Module ConnectionLines.

Import WorkflowBuilder.

(** [blocks.find(b => b.block_id === id)] *)
Definition find_block (st : state) (blockId : string) : option BlockConfig :=
  snd <$> list_find (λ b, block_id b = blockId) (blocks st).

(** The [<line>] of a connection, [x1, y1, x2, y2], from the right edge of
    the source block to the left edge of the target block; [None] is the
    [return null] when either block is missing. *)
Definition connection_line (st : state) (connection : WorkflowConnection)
  : option (Q * Q * Q * Q) :=
  sourceBlock ← find_block st (source_block_id connection);
  targetBlock ← find_block st (target_block_id connection);
  Some ((Position.x (position sourceBlock) + 100)%Q, Position.y (position sourceBlock),
        (Position.x (position targetBlock) - 100)%Q, Position.y (position targetBlock)).

(** [connections.map((connection) => ...)] *)
Definition connection_lines (st : state) : list (option (Q * Q * Q * Q)) :=
  connection_line st <$> connections st.

(** [connections.filter(conn => conn.source_block_id === block.block_id ||
    conn.target_block_id === block.block_id)], the [connections] prop of a
    block component, whose length is the number on its link badge. *)
Definition connections_of (st : state) (block : BlockConfig) : list WorkflowConnection :=
  filter (λ conn, source_block_id conn = block_id block
                  ∨ target_block_id conn = block_id block) (connections st).

End ConnectionLines.

(** ** The grid of the free-position search *)

Module Grid.

(** The cells the search visits, in the order it visits them: three columns
    250 apart, rows 160 apart. *)
Definition cell (k : nat) : Z * Z :=
  (200 + 250 * Z.of_nat (k mod 3), 200 + 160 * Z.of_nat (k / 3))%Z.

Definition cell_position (k : nat) : Position.t :=
  Position.mk (inject_Z (cell k).1) (inject_Z (cell k).2).

(** [addBlock(blockType.type)] from the palette, [n] times, on the state
    [st]; the block types and ids are those of [clicks]. *)
Definition palette_clicks (clicks : list (string * string)) (st : WorkflowBuilder.state)
  : WorkflowBuilder.state :=
  foldl (λ st click, Canvas.ui_step st (Canvas.palette_click click.1 click.2)) st clicks.

End Grid.

(** ** components/JobMonitor.tsx, continued *)

Module JobMonitorView.

(** [formatDuration(startTime, endTime?)]: [start] and [end_] are the
    [getTime()] of the two dates in milliseconds, [now] that of [new Date()],
    which is used when [endTime] is missing.  [Math.floor(a / b)] is [a / b]
    on integers ([b > 0]) and [%] is the remainder with the sign of the
    dividend. *)
Definition formatDuration (start : Z) (end_ : option Z) (now : Z) : string :=
  let duration := ((default now end_ - start) / 1000)%Z in
  if decide (duration < 60)%Z then pretty duration +:+ "s"
  else if decide (duration < 3600)%Z
  then pretty (duration / 60)%Z +:+ "m " +:+ pretty (Z.rem duration 60) +:+ "s"
  else pretty (duration / 3600)%Z +:+ "h " +:+ pretty (Z.rem duration 3600 / 60)%Z +:+ "m".

(** What the details pane shows of the selected job, in order. *)
Inductive part : Type :=
  | cancel_button
  | progress_part
  | results_part
  | error_part.

(** [enabled] of the progress query and of the results query. *)
Definition progress_query_enabled (selectedJob : option JobStatus) : bool :=
  match selectedJob with Some s => bool_decide (s = running) | None => false end.

Definition results_query_enabled (selectedJob : option JobStatus) : bool :=
  match selectedJob with
  | Some s => bool_decide (s ∈ [completed; failed])
  | None => false
  end.

(** The details pane for a selected job with the given status;
    [jobProgress] and [jobResults] tell whether the queries have data and
    [error_message] whether the job has a non-empty error message. *)
Definition details (status : JobStatus) (jobProgress jobResults error_message : bool)
  : list part :=
  (if bool_decide (status = running) then [cancel_button] else [])
  ++ (if bool_decide (status = running) && jobProgress then [progress_part] else [])
  ++ (if bool_decide (status ∈ [completed; failed]) && jobResults then [results_part] else [])
  ++ (if error_message then [error_part] else []).

End JobMonitorView.

(** ** components/ResultsPanel.tsx, continued *)

Module ResultsView.

(** What the panel renders. *)
Inductive pane : Type :=
  | no_job_selected
  | loading
  | no_results (message : string)
  | results_list.

(** The early returns of [ResultsPanel]: [jobId] is the prop, [isLoading]
    and [jobResults] the state of the results query, [status] the status in
    [jobDetails] when the details query has data. *)
Definition render (jobId : option string) (isLoading : bool) (jobResults : bool)
    (status : option JobStatus) : pane :=
  if negb (truthy_string jobId) then no_job_selected
  else if isLoading then loading
  else if negb jobResults || negb (bool_decide (status = Some completed)) then
    no_results (if bool_decide (status = Some running)
                then "Job is still running. Results will appear when completed."
                else "This job has no results to display.")
  else results_list.

(** [s.split('/')]; the slash is character 47. *)
Fixpoint split_slash (s : string) : list string :=
  match s with
  | EmptyString => [EmptyString]
  | String c rest =>
      if Ascii.eqb c (Ascii.ascii_of_nat 47) then EmptyString :: split_slash rest
      else match split_slash rest with
           | segment :: segments => String c segment :: segments
           | [] => [String c EmptyString]
           end
  end.

(** [segments.join('/')] *)
Fixpoint join_slash (segments : list string) : string :=
  match segments with
  | [] => ""
  | [segment] => segment
  | segment :: segments => segment +:+ "/" +:+ join_slash segments
  end.

(** [final_output_path.split('/').pop()], the file name shown under "Final
    Output", and [... .pop() || ''], the file name asked for by the download
    button; [pop] of a split is never [undefined]. *)
Definition shown_file_name (final_output_path : string) : option string :=
  last (split_slash final_output_path).

Definition download_file_name (final_output_path : string) : string :=
  match shown_file_name final_output_path with
  | Some name => if String.eqb name "" then "" else name
  | None => ""
  end.

End ResultsView.

(** ** components/BlockComponent.tsx: the summary line of a block *)

Module BlockComponent.

(** [block.parameters.key]: a missing key reads as [undefined]. *)
Definition param (block : BlockConfig) (key : string) : jsval :=
  default JUndefined (parameters block !! key).

(** [v || fallback] *)
Definition or_else (v fallback : jsval) : jsval := if truthy v then v else fallback.

(** [Object.keys(v).length] of a value that is not [null] or [undefined]:
    the fields of an object, the indices of an array or of a string, nothing
    for a number or a boolean. *)
Definition keys_length (v : jsval) : nat :=
  match v with
  | JObj fields => length fields
  | JArr elems => length elems
  | JStr s => String.length s
  | _ => 0
  end.

Section Summary.

(** The text a template literal gives for a truthy value. *)
Variable String_ : jsval → string.

(** [getParameterSummary] (the same text in both revisions of the
    component); [None] is the [TypeError] of calling [substring] on a
    condition that is not a string. *)
Definition getParameterSummary (block : BlockConfig) : option jsval :=
  if String.eqb (block_type block) "read_csv" then
    Some (or_else (param block "file_path") (JStr "No file selected"))
  else if String.eqb (block_type block) "filter" then
    if truthy (param block "condition") then
      match param block "condition" with
      | JStr condition => Some (JStr (String.substring 0 30 condition +:+ "..."))
      | _ => None
      end
    else Some (JStr "No condition set")
  else if String.eqb (block_type block) "enrich_lead" then
    let structKeys := keys_length (or_else (param block "struct") (JObj [])) in
    Some (JStr (pretty structKeys +:+ " fields"))
  else if String.eqb (block_type block) "find_email" then
    Some (JStr ("Batch size: " +:+
                (if truthy (param block "batch_size")
                 then String_ (param block "batch_size") else "10")))
  else if String.eqb (block_type block) "save_csv" then
    Some (or_else (param block "file_path") (JStr "Auto-generated filename"))
  else Some (JStr "").

End Summary.

End BlockComponent.

(** ** components/BlockParametersModal.tsx *)

Module BlockParametersModal.

Import WorkflowBuilder.

(** The [type] argument of [renderParameterInput]. *)
Inductive input_type : Type :=
  | text_input | textarea_input | number_input | boolean_input | object_input.

(** [renderBlockSpecificParameters]: the inputs the modal renders for a
    block type, each with its parameter key. *)
Definition inputs (blockType : string) : list (string * input_type) :=
  if String.eqb blockType "read_csv" then
    [("file_path", text_input); ("delimiter", text_input); ("encoding", text_input);
     ("skip_rows", number_input)]
  else if String.eqb blockType "filter" then
    [("condition", textarea_input)]
  else if String.eqb blockType "enrich_lead" then
    [("struct", object_input); ("batch_size", number_input); ("timeout", number_input)]
  else if String.eqb blockType "find_email" then
    [("batch_size", number_input); ("timeout", number_input)]
  else if String.eqb blockType "save_csv" then
    [("file_path", text_input); ("delimiter", text_input); ("encoding", text_input);
     ("index", boolean_input)]
  else [].

(** [e.target] of a change event. *)
Record target : Type := mkTarget { value : string; checked : bool }.

(** The kind of value the [onChange] handler of an input of each type
    stores. *)
Definition stores (type : input_type) (v : jsval) : Prop :=
  match type with
  | text_input | textarea_input => ∃ s, v = JStr s
  | number_input => ∃ n, v = JNum n
  | boolean_input => ∃ b, v = JBool b
  | object_input => True
  end.

(** [updateParameter]: [{ ...prev, [key]: value }] *)
Definition updateParameter (key : string) (v : jsval) (prev : gmap string jsval)
  : gmap string jsval := <[key := v]> prev.

Section Modal.

(** [parseInt] ([None] for [NaN]) and [JSON.parse] ([None] for a
    [SyntaxError]). *)
Variable parseInt : string → option Z.
Variable JSON_parse : string → option jsval.

(** The [onChange] handlers of [renderParameterInput]. *)
Definition onChange (type : input_type) (key : string) (e : target)
    (parameters : gmap string jsval) : gmap string jsval :=
  match type with
  | text_input | textarea_input => updateParameter key (JStr (value e)) parameters
  | number_input =>
      updateParameter key
        (JNum (match parseInt (value e) with
               | Some n => if (n =? 0)%Z then 0 else n
               | None => 0
               end)) parameters
  | boolean_input => updateParameter key (JBool (checked e)) parameters
  | object_input =>
      match JSON_parse (value e) with
      | Some parsed => updateParameter key parsed parameters
      | None => parameters
      end
  end.

(** A change of the input for [key], if the modal renders one for the block
    type. *)
Definition change (blockType : string) (parameters : gmap string jsval)
    (c : string * target) : gmap string jsval :=
  match list_find (λ input, input.1 = c.1) (inputs blockType) with
  | Some (_, (_, type)) => onChange type c.1 c.2 parameters
  | None => parameters
  end.

(** The [parameters] state of the modal opened on [block] ([useEffect]
    copies [block.parameters]) after a series of changes. *)
Definition edited (block : BlockConfig) (changes : list (string * target))
  : gmap string jsval :=
  foldl (change (block_type block)) (parameters block) changes.

(** [handleParametersUpdate] of the builder, the [onSave] of the modal. *)
Definition handleParametersUpdate (blockId : string) (parameters : gmap string jsval)
    (st : state) : state * list toast :=
  ((updateBlock blockId
      {| upd_block_id := None; upd_block_type := None; upd_name := None;
         upd_parameters := Some parameters; upd_position := None |} st).1,
   [toast_success "Block parameters updated"]).

(** [handleSave] after the changes: [onSave(block.block_id, parameters)]. *)
Definition handleSave (block : BlockConfig) (changes : list (string * target))
    (st : state) : state * list toast :=
  handleParametersUpdate (block_id block) (edited block changes) st.

End Modal.

End BlockParametersModal.

(** ** Configuring the blocks of the canvas through the modal *)

Module Session.

Import WorkflowBuilder Canvas.

(** The [condition] parameter of a block, when the block has one, is a
    string. *)
Definition condition_is_string (block : BlockConfig) : Prop :=
  ∀ v, parameters block !! "condition" = Some v → ∃ s, v = JStr s.

Section Session.

Variable parseInt : string → option Z.
Variable JSON_parse : string → option jsval.

(** The event sequences of the canvas in which [handleParametersUpdate] is
    called by the modal only: [openParametersModal] selects a block of the
    canvas, and the [onSave] of the modal passes the id of that block and its
    [parameters] state. *)
Inductive session : list ui_event → Prop :=
  | session_start : session []
  | session_event evs ev :
      session evs →
      (∀ blockId parameters, ev ≠ parameters_saved blockId parameters) →
      session (evs ++ [ev])
  | session_save evs block changes :
      session evs → block ∈ blocks (ui_run evs) →
      session (evs ++ [parameters_saved (block_id block)
                         (BlockParametersModal.edited parseInt JSON_parse block changes)]).

End Session.

End Session.


(** * Properties *)

(** ** Connecting blocks *)

Section Connect.

Import WorkflowBuilder Graph.

Implicit Types (st : state) (conns : list WorkflowConnection).

Lemma find_same_pair conns sourceId targetId :
  is_Some (list_find (same_pair sourceId targetId) conns)
  ↔ (sourceId, targetId) ∈ pair_of <$> conns.
Proof.
  rewrite list_elem_of_fmap. split.
  - intros [[i conn] Hfind]. apply list_find_Some in Hfind as (Hi & [Hs Ht] & _).
    exists conn. split; [|by eapply list_elem_of_lookup_2].
    unfold pair_of. by rewrite Hs, Ht.
  - intros (conn & Heq & Hin). unfold pair_of in Heq. simplify_eq.
    by eapply list_find_elem_of.
Qed.

(** The connection list after [connectBlocks], case by case. *)
Lemma connectBlocks_connections sourceId targetId uuid st :
  connections (connectBlocks sourceId targetId uuid st).1 =
    if decide (sourceId = targetId ∨ (sourceId, targetId) ∈ pair_of <$> connections st)
    then connections st
    else connections st ++ [mkWorkflowConnection uuid sourceId targetId].
Proof.
  unfold connectBlocks.
  destruct (list_find _ _) as [found|] eqn:Hfind; simpl.
  - rewrite decide_True; [done|]. right. apply find_same_pair. by rewrite Hfind.
  - assert ((sourceId, targetId) ∉ pair_of <$> connections st) as Hnot.
    { rewrite <- find_same_pair, Hfind. by intros [? ?]. }
    destruct (decide (sourceId = targetId)); simpl.
    + by rewrite decide_True by auto.
    + by rewrite decide_False by tauto.
Qed.

(** The same for [finishConnection], once a connection from [sourceId] is in
    progress. *)
Lemma finishConnection_connections sourceId targetId uuid st :
  connectingFrom st = Some sourceId → sourceId ≠ "" → isConnecting st = true →
  connections (finishConnection targetId uuid st).1 =
    if decide (sourceId = targetId ∨ (sourceId, targetId) ∈ pair_of <$> connections st)
    then connections st
    else connections st ++ [mkWorkflowConnection uuid sourceId targetId].
Proof.
  intros Hfrom Hne Hconn. unfold finishConnection. rewrite Hfrom, Hconn. simpl.
  destruct (String.eqb_spec sourceId "") as [Heq|_]; [done|]. simpl.
  destruct (list_find _ _) as [found|] eqn:Hfind; simpl.
  - rewrite decide_True; [done|]. right. apply find_same_pair. by rewrite Hfind.
  - assert ((sourceId, targetId) ∉ pair_of <$> connections st) as Hnot.
    { rewrite <- find_same_pair, Hfind. by intros [? ?]. }
    destruct (decide (sourceId = targetId)); simpl.
    + by rewrite decide_True by auto.
    + by rewrite decide_False by tauto.
Qed.

(** Without a connection in progress [finishConnection] does nothing. *)
Lemma finishConnection_idle targetId uuid st :
  truthy_string (connectingFrom st) = false ∨ isConnecting st = false →
  finishConnection targetId uuid st = (st, []).
Proof.
  intros H. unfold finishConnection.
  destruct H as [-> | ->]; simpl; [done|]. by rewrite orb_true_r.
Qed.

Lemma well_connected_nil : well_connected [].
Proof. split; [by intros ? ?%elem_of_nil | constructor]. Qed.

Lemma well_connected_sublist conns conns' :
  conns' `sublist_of` conns → well_connected conns → well_connected conns'.
Proof.
  intros Hsub [Hloop Hdup]. split.
  - intros conn Hin. apply Hloop. by eapply elem_of_sublist.
  - unfold no_duplicate_pair in *. eapply sublist_NoDup; [done|]. by apply fmap_sublist.
Qed.

Lemma well_connected_snoc conns uuid sourceId targetId :
  sourceId ≠ targetId → (sourceId, targetId) ∉ pair_of <$> conns →
  well_connected conns →
  well_connected (conns ++ [mkWorkflowConnection uuid sourceId targetId]).
Proof.
  intros Hne Hnew [Hloop Hdup]. split.
  - intros conn [Hin | ->%list_elem_of_singleton]%elem_of_app; [by apply Hloop | done].
  - unfold no_duplicate_pair in *. rewrite fmap_app. apply NoDup_app.
    split_and!; [done | | apply NoDup_singleton].
    intros pr Hin ->%list_elem_of_singleton. done.
Qed.

Lemma well_connected_step_connections conns sourceId targetId uuid :
  well_connected conns →
  well_connected
    (if decide (sourceId = targetId ∨ (sourceId, targetId) ∈ pair_of <$> conns)
     then conns else conns ++ [mkWorkflowConnection uuid sourceId targetId]).
Proof.
  intros Hwc. case_decide as Hcase; [done|].
  apply well_connected_snoc; [tauto | tauto | done].
Qed.

Lemma connectBlocks_well_connected sourceId targetId uuid st :
  well_connected (connections st) →
  well_connected (connections (connectBlocks sourceId targetId uuid st).1).
Proof. rewrite connectBlocks_connections. apply well_connected_step_connections. Qed.

Lemma finishConnection_well_connected targetId uuid st :
  well_connected (connections st) →
  well_connected (connections (finishConnection targetId uuid st).1).
Proof.
  intros Hwc.
  destruct (connectingFrom st) as [sourceId|] eqn:Hfrom;
    [destruct (decide (sourceId = "")) as [->|Hne];
     [|destruct (isConnecting st) eqn:Hconn]|].
  - rewrite finishConnection_idle; [done|]. rewrite Hfrom. by left.
  - rewrite (finishConnection_connections sourceId) by done.
    by apply well_connected_step_connections.
  - rewrite finishConnection_idle; [done|]. by right.
  - rewrite finishConnection_idle; [done|]. rewrite Hfrom. by left.
Qed.

Lemma apply_well_connected st c :
  well_connected (connections st) → well_connected (connections (Calls.apply st c)).
Proof.
  intros Hwc.
  destruct c as [fuel blockType [p|] uuid| | | | | | |]; simpl; try done.
  - unfold Part002.addBlock, addBlock. simpl.
    by destruct (findFreePosition _ _ _ _).
  - eapply well_connected_sublist; [apply sublist_filter | done].
  - by apply connectBlocks_well_connected.
  - eapply well_connected_sublist; [apply sublist_filter | done].
  - by apply finishConnection_well_connected.
Qed.

Lemma run_well_connected cs : well_connected (connections (Calls.run cs)).
Proof.
  unfold Calls.run. induction cs as [|c cs IH] using rev_ind.
  - apply well_connected_nil.
  - rewrite foldl_snoc. by apply apply_well_connected.
Qed.

End Connect.

Section ConnectClaims.

Import WorkflowBuilder Graph.

(** C2.  For every connection list and every pair of ids, connecting leaves
    the list unchanged when the source equals the target or when the ordered
    pair is already connected, and otherwise appends exactly one connection
    with that source and target; this holds for [connectBlocks] and, with a
    connection in progress from the source, for [finishConnection].  Hence,
    whatever handlers are called from the initial state, the connection list
    never contains a self-loop or a duplicate ordered pair. *)
Theorem C2_connect_rejects_self_loop_and_duplicate :
  (∀ sourceId targetId uuid st,
     connections (connectBlocks sourceId targetId uuid st).1 =
       if decide (sourceId = targetId ∨ (sourceId, targetId) ∈ pair_of <$> connections st)
       then connections st
       else connections st ++ [mkWorkflowConnection uuid sourceId targetId])
  ∧ (∀ sourceId targetId uuid st,
       connectingFrom st = Some sourceId → sourceId ≠ "" → isConnecting st = true →
       connections (finishConnection targetId uuid st).1 =
         if decide (sourceId = targetId ∨ (sourceId, targetId) ∈ pair_of <$> connections st)
         then connections st
         else connections st ++ [mkWorkflowConnection uuid sourceId targetId])
  ∧ (∀ cs, no_self_loop (connections (Calls.run cs))
           ∧ no_duplicate_pair (connections (Calls.run cs))).
Proof.
  split_and!.
  - apply connectBlocks_connections.
  - apply finishConnection_connections.
  - apply run_well_connected.
Qed.

Lemma C2_connect_witness :
  let st := (startConnection "A" (connectBlocks "A" "B" "c1" initial).1).1 in
  connections (finishConnection "C" "c2" st).1
  = [mkWorkflowConnection "c1" "A" "B"; mkWorkflowConnection "c2" "A" "C"]
  ∧ connections (finishConnection "B" "c2" st).1 = [mkWorkflowConnection "c1" "A" "B"].
Proof.
  intros st.
  destruct C2_connect_rejects_self_loop_and_duplicate as (_ & Hfinish & _).
  split.
  - rewrite (Hfinish "A" "C" "c2" st); [reflexivity | reflexivity | discriminate | reflexivity].
  - rewrite (Hfinish "A" "B" "c2" st); [reflexivity | reflexivity | discriminate | reflexivity].
Defined.

(** After connecting A to B, connecting B back to A is accepted: the claim
    that a connection closing a cycle is rejected fails on the two-node cycle. *)
Lemma C1_back_edge_is_accepted :
  let st := (connectBlocks "A" "B" "c1" initial).1 in
  let back := connectBlocks "B" "A" "c2" st in
  closes_cycle (connections st) "B" "A"
  ∧ back.2 = [toast_success "Blocks connected"]
  ∧ connections back.1
    = [mkWorkflowConnection "c1" "A" "B"; mkWorkflowConnection "c2" "B" "A"]
  ∧ ¬ acyclic (connections back.1).
Proof.
  intros st back. split_and!.
  - right. apply (path_edge _ (mkWorkflowConnection "c1" "A" "B")). by left.
  - reflexivity.
  - reflexivity.
  - intros Hacyclic. apply (Hacyclic "A").
    apply (path_step _ (mkWorkflowConnection "c1" "A" "B")); [by left|].
    apply (path_edge _ (mkWorkflowConnection "c2" "B" "A")). right. by left.
Qed.

Lemma connect_back_edge sourceId targetId uuid conns :
  (targetId, sourceId) ∈ pair_of <$> conns →
  path (conns ++ [mkWorkflowConnection uuid sourceId targetId]) sourceId sourceId.
Proof.
  intros (conn & Heq & Hin)%list_elem_of_fmap. unfold pair_of in Heq. simplify_eq.
  apply (path_step _ (mkWorkflowConnection uuid (target_block_id conn) (source_block_id conn)));
    [apply elem_of_app; right; by left|].
  apply path_edge. apply elem_of_app. by left.
Qed.

(** C1, amended.  The builder rejects the one-node cycle only: connecting a
    block to itself raises an error toast and leaves the state as it was, for
    [connectBlocks] and for [finishConnection]; a connection from B to A that
    is not yet present is appended although A is already connected to B, and
    the graph then has the cycle through A and B. *)
Theorem C1_only_self_loops_are_rejected :
  (∀ blockId uuid st,
     ∃ msg, connectBlocks blockId blockId uuid st = (st, [toast_error msg]))
  ∧ (∀ blockId uuid st,
       connectingFrom st = Some blockId → blockId ≠ "" → isConnecting st = true →
       ∃ msg, (finishConnection blockId uuid st).2 = [toast_error msg]
              ∧ connections (finishConnection blockId uuid st).1 = connections st)
  ∧ (∀ a b uuid st,
       a ≠ b →
       (a, b) ∈ pair_of <$> connections st →
       (b, a) ∉ pair_of <$> connections st →
       connectBlocks b a uuid st
       = (setConnections (λ prev, prev ++ [mkWorkflowConnection uuid b a]) st,
          [toast_success "Blocks connected"])
       ∧ ¬ acyclic (connections (connectBlocks b a uuid st).1))
  ∧ (∀ a b uuid st,
       connectingFrom st = Some b → b ≠ "" → isConnecting st = true →
       a ≠ b →
       (a, b) ∈ pair_of <$> connections st →
       (b, a) ∉ pair_of <$> connections st →
       connections (finishConnection a uuid st).1
       = connections st ++ [mkWorkflowConnection uuid b a]
       ∧ ¬ acyclic (connections (finishConnection a uuid st).1)).
Proof.
  split_and!.
  - intros blockId uuid st. unfold connectBlocks.
    destruct (list_find _ _); [by eexists|].
    rewrite decide_True by done. by eexists.
  - intros blockId uuid st Hfrom Hne Hconn. unfold finishConnection.
    rewrite Hfrom, Hconn. simpl.
    destruct (String.eqb_spec blockId "") as [Heq|_]; [done|]. simpl.
    destruct (list_find _ _); [by eexists|].
    rewrite decide_True by done. by eexists.
  - intros a b uuid st Hne Hab Hba.
    assert (connectBlocks b a uuid st
            = (setConnections (λ prev, prev ++ [mkWorkflowConnection uuid b a]) st,
               [toast_success "Blocks connected"])) as Heq.
    { unfold connectBlocks.
      destruct (list_find _ _) as [found|] eqn:Hfind.
      - destruct Hba. apply find_same_pair. by rewrite Hfind.
      - by rewrite decide_False by done. }
    split; [done|]. rewrite Heq. simpl.
    intros Hacyclic. apply (Hacyclic b). by apply connect_back_edge.
  - intros a b uuid st Hfrom Hne Hconn Hab Hin Hnew.
    rewrite (finishConnection_connections b a uuid st) by done.
    rewrite decide_False by (intros [? | ?]; congruence).
    split; [done|].
    intros Hacyclic. apply (Hacyclic b). by apply connect_back_edge.
Qed.

Lemma C1_only_self_loops_witness :
  let st := (connectBlocks "A" "B" "c1" initial).1 in
  let st_from_a := (startConnection "A" st).1 in
  let st_from_b := (startConnection "B" st).1 in
  (connectBlocks "B" "A" "c2" st
   = (setConnections (λ prev, prev ++ [mkWorkflowConnection "c2" "B" "A"]) st,
      [toast_success "Blocks connected"])
   ∧ ¬ acyclic (connections (connectBlocks "B" "A" "c2" st).1))
  ∧ (∃ msg, (finishConnection "A" "c2" st_from_a).2 = [toast_error msg]
            ∧ connections (finishConnection "A" "c2" st_from_a).1 = connections st_from_a)
  ∧ (connections (finishConnection "A" "c2" st_from_b).1
     = connections st_from_b ++ [mkWorkflowConnection "c2" "B" "A"]
     ∧ ¬ acyclic (connections (finishConnection "A" "c2" st_from_b).1)).
Proof.
  intros st st_from_a st_from_b.
  destruct C1_only_self_loops_are_rejected as (_ & Hself & Hback & Hfinish).
  assert ("A" ≠ "B") as Hne by discriminate.
  assert (("A", "B") ∈ pair_of <$> connections st) as Hin by (vm_compute; by left).
  assert (("B", "A") ∉ pair_of <$> connections st) as Hnew.
  { vm_compute. intros Hbad. inversion Hbad as [|? ? ? Htail]; subst. inversion Htail. }
  split; [|split].
  - by apply (Hback "A" "B" "c2" st).
  - apply (Hself "A" "c2" st_from_a); [reflexivity | discriminate | reflexivity].
  - apply (Hfinish "A" "B" "c2" st_from_b);
      [reflexivity | discriminate | reflexivity | done..].
Defined.

(** The same on the canvas: two blocks from the palette, a connection from
    the first to the second and one back. *)
Example canvas_accepts_two_node_cycle :
  let st := Canvas.ui_run
              [Canvas.palette_click "read_csv" "A"; Canvas.palette_click "filter" "B";
               Canvas.connect_button "A"; Canvas.block_click "B" "c1";
               Canvas.connection_point "B" "c2"; Canvas.connection_point "A" "c2"] in
  connections st = [mkWorkflowConnection "c1" "A" "B"; mkWorkflowConnection "c2" "B" "A"]
  ∧ position <$> blocks st = [Position.mk 200 200; Position.mk 450 200]
  ∧ isConnecting st = false.
Proof. vm_compute. done. Qed.

End ConnectClaims.

(** ** Removing a block *)

Section Remove.

Import WorkflowBuilder Graph Canvas.

Implicit Types (st : state).

Lemma removeBlock_blocks blockId st b :
  b ∈ blocks (removeBlock blockId st).1 ↔ b ∈ blocks st ∧ block_id b ≠ blockId.
Proof. simpl. rewrite list_elem_of_filter. tauto. Qed.

Lemma removeBlock_connections blockId st conn :
  conn ∈ connections (removeBlock blockId st).1
  ↔ conn ∈ connections st
    ∧ source_block_id conn ≠ blockId ∧ target_block_id conn ≠ blockId.
Proof. simpl. rewrite list_elem_of_filter. tauto. Qed.

Lemma removeBlock_ids blockId st i :
  i ∈ block_ids (removeBlock blockId st).1 ↔ i ∈ block_ids st ∧ i ≠ blockId.
Proof.
  unfold block_ids. rewrite !list_elem_of_fmap. split.
  - intros (b & -> & [Hin Hne]%removeBlock_blocks). eauto.
  - intros [(b & -> & Hin) Hne]. exists b. split; [done|]. by apply removeBlock_blocks.
Qed.

Lemma removeBlock_references blockId st :
  references_blocks (blocks st) (connections st) →
  references_blocks (blocks (removeBlock blockId st).1)
                    (connections (removeBlock blockId st).1).
Proof.
  intros Href conn (Hin & Hs & Ht)%removeBlock_connections.
  destruct (Href conn Hin) as [Hsrc Htgt].
  split; apply removeBlock_ids; done.
Qed.

Lemma references_more_blocks blocks blocks' conns :
  (∀ i, i ∈ block_id <$> blocks → i ∈ block_id <$> blocks') →
  references_blocks blocks conns → references_blocks blocks' conns.
Proof. intros Hsub Href conn Hin. destruct (Href conn Hin). split; auto. Qed.

Lemma references_fewer_connections blocks conns conns' :
  (∀ conn, conn ∈ conns' → conn ∈ conns) →
  references_blocks blocks conns → references_blocks blocks conns'.
Proof. intros Hsub Href conn Hin. apply Href. auto. Qed.

Lemma addBlock_inv fuel blockType position uuid st st' toasts :
  Part002.addBlock fuel blockType position uuid st = Some (st', toasts) →
  canvas_inv st → canvas_inv st'.
Proof.
  unfold Part002.addBlock, addBlock. intros Hadd [Href Hfrom].
  destruct (match position with Some _ => _ | None => _ end) as [xy|];
    simplify_eq/=.
  split; simpl.
  - eapply references_more_blocks; [|done].
    intros i Hi. rewrite fmap_app. apply elem_of_app. by left.
  - intros Hc. destruct (Hfrom Hc) as (b & ? & Hb). exists b. split; [done|].
    unfold block_ids. simpl. rewrite fmap_app. apply elem_of_app. by left.
Qed.

Lemma updateBlock_ids blockId updates st :
  upd_block_id updates = None →
  block_ids (updateBlock blockId updates st).1 = block_ids st.
Proof.
  intros Hid. unfold block_ids. simpl. rewrite <- list_fmap_compose.
  apply list_fmap_ext. intros i b _. simpl. case_decide; [|done].
  simpl. by rewrite Hid.
Qed.

Lemma updateBlock_inv blockId updates st :
  upd_block_id updates = None →
  canvas_inv st → canvas_inv (updateBlock blockId updates st).1.
Proof.
  intros Hid [Href Hfrom]. split.
  - eapply references_more_blocks; [|exact Href].
    intros i Hi. fold (block_ids (updateBlock blockId updates st).1).
    by rewrite updateBlock_ids.
  - rewrite updateBlock_ids by done. exact Hfrom.
Qed.

Lemma finishConnection_inv targetId uuid st :
  targetId ∈ block_ids st → canvas_inv st → canvas_inv (finishConnection targetId uuid st).1.
Proof.
  intros Htarget [Href Hfrom]. unfold finishConnection.
  destruct (negb (truthy_string (connectingFrom st)) || negb (isConnecting st)) eqn:Hidle;
    [by split|].
  apply orb_false_elim in Hidle as [_ Hc%negb_false_iff].
  destruct (Hfrom Hc) as (b & Hb & Hsource). rewrite Hb. simpl.
  destruct (list_find _ _); [by split|].
  case_decide; [by split|].
  split; [|done]. simpl.
  intros conn [Hin | ->%list_elem_of_singleton]%elem_of_app; [by apply Href|].
  by split.
Qed.

Lemma on_block_inv blockId ev st :
  rendered blockId st → canvas_inv st → canvas_inv (on_block blockId ev st).
Proof.
  intros Hr Hinv. pose proof Hinv as [Href Hfrom].
  assert (canvas_inv (startConnection blockId st).1) as Hstart.
  { split; [done|]. intros _. by exists blockId. }
  destruct ev; simpl; try done.
  - destruct (isConnecting st && canBeTarget st blockId); [|done].
    by apply finishConnection_inv.
  - by destruct (isConnecting st).
  - destruct (isConnecting st) eqn:Hc; [done|].
    split; [by apply removeBlock_references|]. simpl. by rewrite Hc.
  - destruct (isConnecting st && canBeTarget st blockId);
      [by apply finishConnection_inv|].
    by destruct (isConnecting st).
Qed.

Lemma ui_step_inv st ev : canvas_inv st → canvas_inv (ui_step st ev).
Proof.
  intros Hinv. pose proof Hinv as [Href Hfrom].
  destruct ev; cbn [ui_step];
    try (case_decide; [by apply on_block_inv | done]).
  - destruct (Part002.addBlock _ _ _ _ _) as [[st' toasts]|] eqn:Hadd; [|done].
    by eapply addBlock_inv.
  - destruct (Part002.addBlock _ _ _ _ _) as [[st' toasts]|] eqn:Hadd; [|done].
    by eapply addBlock_inv.
  - destruct (isConnecting st); [|done]. by split.
  - split; [|done]. simpl.
    eapply references_fewer_connections; [|done].
    by intros conn [_ ?]%list_elem_of_filter.
  - by apply updateBlock_inv.
  - by apply updateBlock_inv.
Qed.

Lemma ui_run_inv evs : canvas_inv (ui_run evs).
Proof.
  unfold ui_run. induction evs as [|ev evs IH] using rev_ind.
  - split; [by intros ? ?%elem_of_nil | done].
  - rewrite foldl_snoc. by apply ui_step_inv.
Qed.

(** C9.  [removeBlock] removes the block with the given id and every
    connection that has the id as its source or as its target, keeps every
    other block and every connection between two remaining blocks, and keeps
    connections among existing blocks; in every state the canvas can reach,
    before and after a removal, no connection references a missing block. *)
Theorem C9_removeBlock_leaves_no_dangling_connection :
  (∀ blockId st,
     let st' := (removeBlock blockId st).1 in
     (blockId ∉ block_ids st')
     ∧ (∀ conn, conn ∈ connections st' →
          source_block_id conn ≠ blockId ∧ target_block_id conn ≠ blockId)
     ∧ (∀ b, b ∈ blocks st → block_id b ≠ blockId → b ∈ blocks st')
     ∧ blocks st' `sublist_of` blocks st
     ∧ connections st' `sublist_of` connections st
     ∧ (∀ conn, conn ∈ connections st →
          source_block_id conn ∈ block_ids st' → target_block_id conn ∈ block_ids st' →
          conn ∈ connections st')
     ∧ connectingFrom st' = connectingFrom st ∧ isConnecting st' = isConnecting st
     ∧ (references_blocks (blocks st) (connections st) →
        references_blocks (blocks st') (connections st')))
  ∧ (∀ evs blockId,
       references_blocks (blocks (ui_run evs)) (connections (ui_run evs))
       ∧ references_blocks (blocks (ui_run (evs ++ [remove_button blockId])))
                           (connections (ui_run (evs ++ [remove_button blockId])))).
Proof.
  split.
  - intros blockId st st'. split_and!.
    + intros [_ Hne]%(removeBlock_ids blockId st). done.
    + intros conn Hin%removeBlock_connections. tauto.
    + intros b Hin Hne. by apply removeBlock_blocks.
    + apply sublist_filter.
    + apply sublist_filter.
    + intros conn Hin [_ Hs]%(removeBlock_ids blockId st) [_ Ht]%(removeBlock_ids blockId st).
      by apply removeBlock_connections.
    + done.
    + done.
    + apply removeBlock_references.
  - intros evs blockId. split; apply ui_run_inv.
Qed.

Lemma C9_removeBlock_witness :
  let st := (connectBlocks "A" "B" "c1"
               {| blocks := [mkBlockConfig "A" "read_csv" "Read CSV" ∅ (Position.mk 200 200);
                             mkBlockConfig "B" "filter" "Filter" ∅ (Position.mk 450 200)];
                  connections := []; connectingFrom := None; isConnecting := false |}).1 in
  references_blocks (blocks (removeBlock "B" st).1) (connections (removeBlock "B" st).1).
Proof.
  intros st.
  apply (proj1 C9_removeBlock_leaves_no_dangling_connection "B" st).
  intros conn Hin. vm_compute in Hin.
  apply list_elem_of_singleton in Hin as ->.
  split; vm_compute; [by left | right; by left].
Defined.

End Remove.

(** ** Default parameters *)

Section Defaults.

Import WorkflowBuilder.

Lemma addBlock_appends getDefaultParameters fuel blockType position uuid st st' toasts :
  addBlock getDefaultParameters fuel blockType position uuid st = Some (st', toasts) →
  ∃ newBlock,
    blocks st' = blocks st ++ [newBlock]
    ∧ connections st' = connections st
    ∧ block_id newBlock = uuid
    ∧ block_type newBlock = blockType
    ∧ parameters newBlock = getDefaultParameters blockType.
Proof.
  unfold addBlock. intros Hadd.
  destruct (match position with Some _ => _ | None => _ end) as [xy|]; simplify_eq/=.
  by eexists.
Qed.

(** C7.  The default configuration of an [enrich_lead] and of a [find_email]
    block has [batch_size] 10, the default batch size of the enrichment
    client, in every revision of [getDefaultParameters]; a block of either
    type that [addBlock] creates carries it. *)
Theorem C7_default_batch_size_is_10 (t : BlockType) :
  t = enrich_lead ∨ t = find_email →
  Part001.getDefaultParameters (BlockType_tag t) !! "batch_size"
    = Some (JNum Engine.default_batchSize)
  ∧ Part002.getDefaultParameters (BlockType_tag t) !! "batch_size"
    = Some (JNum Engine.default_batchSize)
  ∧ Part003.getDefaultParameters (BlockType_tag t) !! "batch_size"
    = Some (JNum Engine.default_batchSize)
  ∧ Engine.default_batchSize = 10%Z
  ∧ (∀ fuel position uuid st st' toasts,
       Part001.addBlock fuel (BlockType_tag t) position uuid st = Some (st', toasts)
       ∨ Part002.addBlock fuel (BlockType_tag t) position uuid st = Some (st', toasts) →
       ∃ newBlock,
         blocks st' = blocks st ++ [newBlock]
         ∧ block_type newBlock = BlockType_tag t
         ∧ parameters newBlock !! "batch_size" = Some (JNum 10))
  ∧ (∀ random_x random_y uuid st,
       ∃ newBlock,
         blocks (Part003.addBlock (BlockType_tag t) random_x random_y uuid st).1
         = blocks st ++ [newBlock]
         ∧ block_type newBlock = BlockType_tag t
         ∧ parameters newBlock !! "batch_size" = Some (JNum 10)).
Proof.
  intros Htype.
  assert (Part001.getDefaultParameters (BlockType_tag t) !! "batch_size" = Some (JNum 10)
          ∧ Part002.getDefaultParameters (BlockType_tag t) !! "batch_size"
            = Some (JNum 10))
    as [H1 H2].
  { destruct Htype as [-> | ->]; split; reflexivity. }
  split_and!; [done..| |].
  - intros fuel position uuid st st' toasts [Hadd | Hadd];
      apply addBlock_appends in Hadd as (newBlock & Hblocks & _ & _ & Hty & Hparams);
      exists newBlock; rewrite Hparams; done.
  - intros random_x random_y uuid st. by eexists.
Qed.

Lemma C7_default_batch_size_witness :
  Part001.getDefaultParameters "find_email" !! "batch_size" = Some (JNum 10)
  ∧ Part002.getDefaultParameters "enrich_lead" !! "batch_size" = Some (JNum 10).
Proof.
  split.
  - apply (C7_default_batch_size_is_10 find_email). by right.
  - apply (C7_default_batch_size_is_10 enrich_lead). by left.
Defined.

(** The other block types have no batch size. *)
Example other_defaults_have_no_batch_size :
  Forall (λ t, Part001.getDefaultParameters (BlockType_tag t) !! "batch_size" = None
               ∧ Part002.getDefaultParameters (BlockType_tag t) !! "batch_size" = None)
    [read_csv; save_csv; filter_block]
  ∧ Part002.getDefaultParameters "enrich_company" = ∅.
Proof. split; [repeat constructor|]; reflexivity. Qed.

End Defaults.

(** ** The data preview *)

Section Preview.

Import ResultsPanel.

Variable String_ : jsval → string.
Variable builtin_property : jsval → string → jsval.




End Preview.

(** Arrays the table is not rendered for: the empty array and an array of
    numbers fall back to the JSON text, the JSON view never shows a table,
    and a [null] row is a [TypeError]. *)
Example preview_without_table :
  let render := ResultsPanel.renderDataPreview (λ _, "cell") (λ _ _, JUndefined) in
  render ResultsPanel.table (JArr []) = ResultsPanel.r_json_fallback (JArr [])
  ∧ render ResultsPanel.table (JArr [JNum 1; JNum 2])
    = ResultsPanel.r_json_fallback (JArr [JNum 1; JNum 2])
  ∧ render ResultsPanel.json (JArr [JObj [("a", JNum 1)]])
    = ResultsPanel.r_json_view (JArr [JObj [("a", JNum 1)]])
  ∧ render ResultsPanel.table (JArr [JNull]) = ResultsPanel.r_throw
  ∧ render ResultsPanel.table (JArr [JObj [("a", JNum 1)]; JNull]) = ResultsPanel.r_throw
  ∧ render ResultsPanel.table JNull = ResultsPanel.r_null.
Proof. repeat split. Qed.

(** The columns of the table are in the order of [Object.keys]: keys that
    are array indices come first, in ascending order. *)
Example preview_columns_order :
  ResultsPanel.renderDataPreview
    (λ v, match v with JStr s => s | _ => "" end) (λ _ _, JUndefined)
    ResultsPanel.table
    (JArr [JObj [("name", JStr "Ada"); ("10", JStr "x"); ("2", JStr "y");
                 ("02", JStr "z")]])
  = ResultsPanel.r_table ["2"; "10"; "name"; "02"] [["y"; "x"; "Ada"; "z"]] None.
Proof. reflexivity. Qed.


(** ** The free-position search *)

Section FreePosition.

Import WorkflowBuilder.

Implicit Types (pos : Position.t) (ps : list Position.t).

(** Two rows whose bands contain the same ordinate are at most one apart:
    the bands are 280 wide and the rows 160 apart. *)
Lemma near_rows (c : Q) (a b : Z) :
  (Qabs (c - inject_Z (200 + 160 * a)) < 140)%Q →
  (Qabs (c - inject_Z (200 + 160 * b)) < 140)%Q →
  (a - b < 2)%Z.
Proof.
  intros Ha%Qabs_Qlt_condition Hb%Qabs_Qlt_condition.
  rewrite inject_Z_plus, inject_Z_mult in Ha, Hb.
  apply Z.lt_sub_lt_add_r. rewrite Zlt_Qlt, inject_Z_plus.
  change (inject_Z 200) with 200%Q in *.
  change (inject_Z 160) with 160%Q in *.
  change (inject_Z 2) with 2%Q in *.
  lra.
Qed.

Lemma in_row_close pos a b : in_row pos a → in_row pos b → a ≤ S b.
Proof.
  unfold in_row, row_y. intros Ha Hb.
  pose proof (near_rows _ _ _ Ha Hb). lia.
Qed.

(** A block position blocks at most two rows. *)
Lemma in_row_at_most_2 pos (rows : list nat) :
  NoDup rows → Forall (in_row pos) rows → length rows ≤ 2.
Proof.
  intros Hdup Hrows.
  destruct rows as [|a [|b [|c rows]]]; simpl; [lia..|].
  exfalso.
  apply NoDup_cons in Hdup as [Ha Hdup]. apply NoDup_cons in Hdup as [Hb _].
  apply not_elem_of_cons in Ha as [Hab Ha]. apply not_elem_of_cons in Ha as [Hac _].
  apply not_elem_of_cons in Hb as [Hbc _].
  apply Forall_cons in Hrows as [Hra Hrows].
  apply Forall_cons in Hrows as [Hrb Hrows].
  apply Forall_cons in Hrows as [Hrc _].
  pose proof (in_row_close _ _ _ Hra Hrb). pose proof (in_row_close _ _ _ Hrb Hra).
  pose proof (in_row_close _ _ _ Hra Hrc). pose proof (in_row_close _ _ _ Hrc Hra).
  pose proof (in_row_close _ _ _ Hrb Hrc). pose proof (in_row_close _ _ _ Hrc Hrb).
  lia.
Qed.

(** Among more than twice as many rows as there are blocks, one row has no
    block in its band. *)
Lemma free_row ps : ∀ rows : list nat,
  NoDup rows → 2 * length ps < length rows →
  ∃ j, j ∈ rows ∧ Forall (λ pos, ¬ in_row pos j) ps.
Proof.
  induction ps as [|pos ps IH]; intros rows Hdup Hlen.
  - destruct rows as [|j rows]; [simpl in Hlen; lia|].
    exists j. split; [by left | constructor].
  - pose proof (filter_app_complement (in_row pos) rows) as Hsplit.
    apply Permutation_length in Hsplit. rewrite length_app in Hsplit.
    assert (length (filter (in_row pos) rows) ≤ 2) as Hblocked.
    { apply (in_row_at_most_2 pos); [by apply NoDup_filter|].
      apply Forall_forall. by intros j [? _]%list_elem_of_filter. }
    destruct (IH (filter (λ j, ¬ in_row pos j) rows)) as (j & Hj & Hfree).
    { by apply NoDup_filter. }
    { simpl in Hlen. lia. }
    apply list_elem_of_filter in Hj as [Hpos Hj].
    exists j. split; [done|]. by constructor.
Qed.

Lemma free_row_not_overlapped ps j x :
  Forall (λ pos, ¬ in_row pos j) ps → ¬ Exists (overlaps x (row_y j)) ps.
Proof.
  rewrite Forall_forall, Exists_exists. intros Hfree (pos & Hin & _ & Hy).
  by apply (Hfree pos Hin).
Qed.

(** The position the search returns overlaps no existing position. *)
Lemma findFreePosition_free ps fuel : ∀ x y x' y',
  findFreePosition fuel ps x y = Some (x', y') → ¬ Exists (overlaps x' y') ps.
Proof.
  induction fuel as [|fuel IH]; intros x y x' y'; simpl; [done|].
  repeat case_decide; eauto. by intros [= <- <-].
Qed.

(** More fuel does not change a result. *)
Lemma findFreePosition_mono ps fuel : ∀ fuel' x y found,
  findFreePosition fuel ps x y = Some found → fuel ≤ fuel' →
  findFreePosition fuel' ps x y = Some found.
Proof.
  induction fuel as [|fuel IH]; intros fuel' x y found; simpl; [done|].
  intros Hfound Hle. destruct fuel' as [|fuel']; [lia|]. simpl.
  repeat case_decide; try done; apply IH; (done || lia).
Qed.

(** Starting at the left end of a row, the search ends at the latest on the
    first column of the next row that no block overlaps: a row has the three
    columns 200, 450 and 700. *)
Lemma scan_rows ps : ∀ j fuel y,
  ¬ Exists (overlaps 200 (y + 160 * Z.of_nat j)) ps → 3 * j + 1 ≤ fuel →
  is_Some (findFreePosition fuel ps 200 y).
Proof.
  induction j as [|j IH]; intros fuel y Hfree Hfuel.
  - destruct fuel as [|fuel]; [lia|]. simpl.
    replace (y + 160 * Z.of_nat 0)%Z with y in Hfree by lia.
    by rewrite decide_False.
  - destruct fuel as [|[|[|fuel]]]; [lia..|].
    cbn [findFreePosition].
    repeat case_decide; try lia; try (by eexists).
    apply IH; [|lia].
    by replace (y + 160 + 160 * Z.of_nat j)%Z with (y + 160 * Z.of_nat (S j))%Z by lia.
Qed.

Lemma findFreePosition_terminates ps :
  is_Some (findFreePosition (6 * length ps + 1) ps 200 200).
Proof.
  destruct (free_row ps (seq 0 (2 * length ps + 1))) as (j & Hj & Hfree).
  { apply NoDup_seq. }
  { rewrite length_seq. lia. }
  apply elem_of_seq in Hj.
  apply (scan_rows ps j); [|lia].
  by apply free_row_not_overlapped.
Qed.

End FreePosition.

Section FreePositionClaim.

Import WorkflowBuilder.

(** C10.  For every finite list of existing block positions the free-position
    search of [addBlock] terminates, after at most [6 * n + 1] evaluations of
    its condition for [n] existing blocks, and the position it returns
    overlaps no existing position: none is within 220 horizontally and 140
    vertically of it.  [addBlock] without an explicit position therefore
    adds a block, placed at that position. *)
Theorem C10_free_position_search_terminates (existingPositions : list Position.t) :
  (∃ x y,
     (∀ fuel, 6 * length existingPositions + 1 ≤ fuel →
        findFreePosition fuel existingPositions 200 200 = Some (x, y))
     ∧ Forall (λ pos, ¬ ((Qabs (Position.x pos - inject_Z x) < 220)%Q
                         ∧ (Qabs (Position.y pos - inject_Z y) < 140)%Q))
         existingPositions)
  ∧ (∀ getDefaultParameters fuel blockType uuid st,
       WorkflowBuilder.existingPositions st = existingPositions →
       6 * length existingPositions + 1 ≤ fuel →
       ∃ st' toasts newBlock x y,
         addBlock getDefaultParameters fuel blockType None uuid st = Some (st', toasts)
         ∧ blocks st' = blocks st ++ [newBlock]
         ∧ position newBlock = Position.mk (inject_Z x) (inject_Z y)
         ∧ Forall (λ b, ¬ overlaps x y (position b)) (blocks st)).
Proof.
  destruct (findFreePosition_terminates existingPositions) as [[x y] Hfound].
  pose proof (findFreePosition_free _ _ _ _ _ _ Hfound) as Hfree.
  rewrite <- Forall_Exists_neg in Hfree.
  split.
  - exists x, y. split; [|exact Hfree].
    intros fuel Hfuel. by eapply findFreePosition_mono.
  - intros getDefaultParameters fuel blockType uuid st Hpos Hfuel.
    unfold addBlock. rewrite Hpos.
    rewrite (findFreePosition_mono _ _ fuel _ _ _ Hfound Hfuel). simpl.
    do 3 eexists. exists x, y. split_and!; [done..|].
    rewrite <- Hpos in Hfree. unfold WorkflowBuilder.existingPositions in Hfree.
    by rewrite Forall_fmap in Hfree.
Qed.

Lemma C10_free_position_witness :
  let taken := [Position.mk 200 200; Position.mk 450 200; Position.mk (1401 # 2) 330] in
  ∃ x y,
    findFreePosition 19 taken 200 200 = Some (x, y)
    ∧ Forall (λ pos, ¬ ((Qabs (Position.x pos - inject_Z x) < 220)%Q
                        ∧ (Qabs (Position.y pos - inject_Z y) < 140)%Q)) taken.
Proof.
  intros taken.
  destruct (proj1 (C10_free_position_search_terminates taken)) as (x & y & Hfuel & Hfree).
  exists x, y. split; [|exact Hfree].
  apply Hfuel. simpl. lia.
Defined.

(** The search on that canvas: the first row is taken, the block at
    (700.5, 330) blocks the second row from its second column on. *)
Example findFreePosition_example :
  findFreePosition 19
    [Position.mk 200 200; Position.mk 450 200; Position.mk (1401 # 2) 330] 200 200
  = Some (200%Z, 360%Z).
Proof. vm_compute. reflexivity. Qed.

End FreePositionClaim.

(** ** Block executors *)

Section ExecutorFacts.

Import Engine.

Variable service : request → reply.
Variable read_source : string → BlockError + list (gmap string jsval).
Variable parse_predicate : string → option (gmap string jsval → option bool).
Variable error_column : string.
Variable failure_text : Failure → string.

Implicit Types (input : list (gmap string jsval)) (row : gmap string jsval).

(** C3.  The filter executor never increases the row count: for a decodable
    predicate it succeeds on every input table, its output is the
    subsequence of the input rows on which the predicate evaluates to true,
    so rowsOut ≤ rowsIn, and a row on which the predicate cannot be evaluated
    is left out instead of failing the block; only a malformed predicate is
    an error. *)
Theorem C3_filter_never_increases_row_count (predicate : string) input :
  match execute_filter parse_predicate predicate input with
  | inl e => parse_predicate predicate = None ∧ e = MalformedPredicateError
  | inr ex =>
      ∃ p out,
        parse_predicate predicate = Some p
        ∧ output ex = Some out
        ∧ rowsIn ex = length input
        ∧ rowsOut ex = length out
        ∧ rowsOut ex ≤ rowsIn ex
        ∧ out `sublist_of` input
        ∧ (∀ row, row ∈ out ↔ row ∈ input ∧ p row = Some true)
        ∧ (∀ row, p row = None → row ∉ out)
  end
  ∧ execute service read_source parse_predicate error_column failure_text
      (filter_rows predicate) (Some input)
    = execute_filter parse_predicate predicate input.
Proof.
  split; [|done]. unfold execute_filter.
  destruct (parse_predicate predicate) as [p|]; [|done].
  exists p, (filter (λ row, p row = Some true) input). simpl.
  split_and!; try done.
  - apply length_filter.
  - apply sublist_filter.
  - intros row. rewrite list_elem_of_filter. tauto.
  - intros row Hnone [Htrue _]%list_elem_of_filter. congruence.
Qed.

Lemma mapM_app_Some {A B : Type} (f : A → option B) (l1 l2 : list A) :
  mapM f (l1 ++ l2) = k1 ← mapM f l1; k2 ← mapM f l2; Some (k1 ++ k2).
Proof.
  induction l1 as [|x l1 IH]; simpl.
  - by destruct (mapM f l2).
  - destruct (f x) as [y|]; simpl; [|done]. rewrite IH.
    destruct (mapM f l1) as [k1|]; simpl; [|done].
    by destruct (mapM f l2).
Qed.

Lemma batches_go_mapM {A B : Type} (f : A → option B) (size : nat) :
  ∀ fuel (records : list A),
    0 < size → length records ≤ fuel →
    mjoin <$> mapM (mapM f) (batches_go fuel size records) = mapM f records.
Proof.
  induction fuel as [|fuel IH]; intros records Hsize Hfuel.
  - destruct records; [done | simpl in Hfuel; lia].
  - destruct records as [|record records]; [done|].
    cbn [batches_go]. rewrite <- (take_drop size (record :: records)) at 3.
    rewrite mapM_app_Some.
    rewrite <- (IH (drop size (record :: records))); [|done|].
    + cbn [mapM]. destruct (mapM f (take size (record :: records))) as [k1|]; [|done].
      cbn [mbind option_bind]. by destruct (mapM (mapM f) _).
    + rewrite length_drop. simpl in *. lia.
Qed.

Lemma enrichBatch_one_outcome_per_record records fields aggressive size :
  enrichBatch service records fields aggressive size
  = mapM (enrich_one service fields aggressive) records.
Proof.
  unfold enrichBatch, batches. apply batches_go_mapM; lia.
Qed.

Lemma execute_enrich_rows cfg aggressive input :
  let call := λ row, service (mkRequest (record_of (selected_columns cfg) row)
                                (target_fields cfg) aggressive) in
  match execute_enrich service error_column failure_text cfg aggressive input with
  | inl e => e = CircuitOpenError
             ∧ ∃ row, row ∈ input ∧ call row = BreakerOpenPastMaxWait
  | inr ex =>
      (∀ row, row ∈ input → call row ≠ BreakerOpenPastMaxWait)
      ∧ ∃ out,
          ex = {| output := Some out; rowsIn := length input; rowsOut := length input |}
          ∧ length out = length input
          ∧ ∀ i row, input !! i = Some row →
              ∃ o, call row = Settled o
                   ∧ out !! i = Some (merge_outcome error_column failure_text row o)
  end.
Proof.
  intros call. unfold execute_enrich. rewrite enrichBatch_one_outcome_per_record.
  destruct (mapM _ _) as [outcomes|] eqn:Hcalls.
  - apply mapM_Some in Hcalls.
    assert (∀ i row, input !! i = Some row →
              ∃ o, call row = Settled o
                   ∧ outcomes !! i = Some (record_of (selected_columns cfg) row, o))
      as Hith.
    { intros i row Hrow.
      destruct (Forall2_lookup_l _ _ _ i (record_of (selected_columns cfg) row) Hcalls)
        as (y & Hy & Hcall); [by rewrite list_lookup_fmap, Hrow|].
      unfold enrich_one in Hcall. fold (call row) in Hcall.
      destruct (call row) as [o|]; simplify_eq/=. by exists o. }
    assert (length (zip_with (merge_outcome error_column failure_text) input (outcomes.*2))
            = length input) as Hlen.
    { rewrite length_zip_with_l_eq; [done|].
      apply Forall2_length in Hcalls. by rewrite !length_fmap in *. }
    split.
    + intros row [i Hrow]%list_elem_of_lookup Hopen.
      destruct (Hith i row Hrow) as (o & Ho & _). congruence.
    + eexists. split; [|split; [exact Hlen|]].
      * by rewrite Hlen.
      * intros i row Hrow. destruct (Hith i row Hrow) as (o & Ho & Hi).
        exists o. split; [done|].
        by rewrite lookup_zip_with, Hrow, list_lookup_fmap, Hi.
  - split; [done|].
    apply mapM_None, Exists_exists in Hcalls as (record & Hin & Hcall).
    apply list_elem_of_fmap in Hin as (row & -> & Hin).
    exists row. split; [done|].
    unfold enrich_one in Hcall. fold (call row) in Hcall.
    by destruct (call row).
Qed.

(** C4.  An enrich-record or find-contact block either succeeds or fails
    with the one block-fatal error of enrichment, the circuit breaker that
    remained open past the maximum wait for some row; it succeeds whenever
    every row has an outcome, however many of the calls failed.  When it
    succeeds, rowsOut = rowsIn, the i-th output row comes from the i-th input
    row and has every column of it; an enriched row has the returned fields
    and, in every other column, what the input row had; a row whose call
    failed keeps every original column and gains the error marker column. *)
Theorem C4_enrich_preserves_row_count (cfg : EnrichConfig) input :
  ∀ b aggressive,
    (b = enrich_record cfg ∧ aggressive = false)
    ∨ (b = find_contact cfg ∧ aggressive = aggressive_search cfg) →
    let call := λ row, service (mkRequest (record_of (selected_columns cfg) row)
                                  (target_fields cfg) aggressive) in
    match execute service read_source parse_predicate error_column failure_text
            b (Some input) with
    | inl e =>
        e = CircuitOpenError
        ∧ ∃ row, row ∈ input ∧ call row = BreakerOpenPastMaxWait
    | inr ex =>
        (∀ row, row ∈ input → call row ≠ BreakerOpenPastMaxWait)
        ∧ ∃ out,
            output ex = Some out
            ∧ rowsIn ex = length input
            ∧ rowsOut ex = length input
            ∧ length out = length input
            ∧ ∀ i row, input !! i = Some row →
                ∃ row',
                  out !! i = Some row'
                  ∧ (∀ column, is_Some (row !! column) → is_Some (row' !! column))
                  ∧ (∀ fields, call row = Settled (Enriched fields) →
                       ∀ column,
                         row' !! column = match fields !! column with
                                          | Some v => Some v
                                          | None => row !! column
                                          end)
                  ∧ (∀ why, call row = Settled (Failed why) →
                       row' !! error_column = Some (JStr (failure_text why))
                       ∧ ∀ column, column ≠ error_column →
                           row' !! column = row !! column)
    end.
Proof.
  intros b aggressive Hkind call.
  pose proof (execute_enrich_rows cfg aggressive input) as Hrows. cbv zeta in Hrows.
  fold call in Hrows.
  assert (execute service read_source parse_predicate error_column failure_text
            b (Some input)
          = execute_enrich service error_column failure_text cfg aggressive input)
    as -> by (by destruct Hkind as [[-> ->] | [-> ->]]).
  destruct (execute_enrich _ _ _ _ _ _) as [e|ex]; [exact Hrows|].
  destruct Hrows as (Hclosed & out & -> & Hlen & Hrows).
  split; [exact Hclosed|]. exists out. split_and!; try done.
  intros i row Hrow. destruct (Hrows i row Hrow) as (o & Ho & Hi).
  eexists. split; [exact Hi|]. split_and!.
  - intros column [v Hv]. destruct o as [fields|why]; simpl.
    + destruct (fields !! column) as [w|] eqn:Hw.
      * exists w. by apply lookup_union_Some_l.
      * exists v. by rewrite lookup_union_r.
    + destruct (decide (column = error_column)) as [->|Hne].
      * eexists. apply lookup_insert_eq.
      * exists v. by rewrite lookup_insert_ne.
  - intros fields Hfields column. rewrite Ho in Hfields. simplify_eq/=.
    destruct (fields !! column) as [w|] eqn:Hw.
    + by apply lookup_union_Some_l.
    + by apply lookup_union_r.
  - intros why Hwhy. rewrite Ho in Hwhy. simplify_eq/=. split.
    + apply lookup_insert_eq.
    + intros column Hne. by apply lookup_insert_ne.
Qed.

End ExecutorFacts.

Lemma C4_enrich_witness :
  let service := λ req : Engine.request,
    if decide (is_Some (Engine.payload req !! "name"))
    then Engine.Settled (Engine.Enriched {[ "title" := JStr "CTO" ]})
    else Engine.Settled (Engine.Failed Engine.Timeout) in
  let cfg := Engine.mkEnrichConfig ["name"; "company"] ["email"; "title"] 10 false in
  let input : list (gmap string jsval) :=
    [ {[ "name" := JStr "Ada"; "company" := JStr "Acme" ]};
      {[ "company" := JStr "Acme" ]};
      {[ "name" := JStr "Grace" ]} ] in
  ∃ ex out,
    Engine.execute service (λ _, inl Engine.SourceReadError) (λ _, None)
      "error" (λ _, "enrichment failed") (Engine.enrich_record cfg) (Some input)
    = inr ex
    ∧ Engine.output ex = Some out
    ∧ Engine.rowsIn ex = 3 ∧ Engine.rowsOut ex = 3 ∧ length out = 3.
Proof.
  intros service cfg input.
  pose proof (C4_enrich_preserves_row_count service (λ _, inl Engine.SourceReadError)
                (λ _, None) "error" (λ _, "enrichment failed") cfg input
                (Engine.enrich_record cfg) false (or_introl (conj eq_refl eq_refl)))
    as Hrows.
  cbv zeta in Hrows.
  destruct (Engine.execute _ _ _ _ _ _ _) as [e|ex].
  - destruct Hrows as (_ & row & Hin & Hopen). exfalso.
    unfold service in Hopen. by case_decide.
  - destruct Hrows as (_ & out & Hout & Hin & Hrows & Hlen & _).
    exists ex, out. split_and!; done.
Defined.

(** ** The job state machine *)

Section JobFacts.

Import Engine.

Variable service : request → reply.
Variable read_source : string → BlockError + list (gmap string jsval).
Variable parse_predicate : string → option (gmap string jsval → option bool).
Variable validate : list Block → option BlockError.
Variable error_column : string.
Variable failure_text : Failure → string.
Variable preview_rows : nat.

Local Abbreviation step :=
  (Engine.step service read_source parse_predicate validate error_column failure_text
     preview_rows).
Local Abbreviation run :=
  (Engine.run service read_source parse_predicate validate error_column failure_text
     preview_rows).
Local Abbreviation run_block :=
  (Engine.run_block service read_source parse_predicate error_column failure_text
     preview_rows).

Implicit Types (job : Job) (ev : event) (evs : list event).

Lemma run_snoc job evs ev : run job (evs ++ [ev]) = step (run job evs) ev.
Proof. unfold Engine.run. apply foldl_snoc. Qed.

Lemma run_block_results b rest job :
  ∃ r, results (run_block b rest job) = results job ++ [r] ∧ result_block r = id b.
Proof.
  unfold Engine.run_block. destruct (execute _ _ _ _ _ _ _); by eexists.
Qed.

Lemma run_block_status b rest job :
  status (run_block b rest job) = running ∨ status (run_block b rest job) = failed.
Proof.
  unfold Engine.run_block. destruct (execute _ _ _ _ _ _ _); simpl; auto.
Qed.

(** One event changes the status along a transition of the machine, or not
    at all. *)
Lemma step_transition job ev :
  status (step job ev) = status job ∨ transition (status job) (status (step job ev)).
Proof.
  unfold Engine.step.
  destruct (status job) eqn:Hst, ev; simpl; auto.
  - destruct (validate _); simpl; [by left | right; constructor].
  - destruct (cancel_requested job); simpl; [right; constructor|].
    destruct (plan job) as [|b rest]; simpl; [right; constructor|].
    destruct (run_block_status b rest job) as [-> | ->];
      [by left | right; constructor].
Qed.

Lemma step_terminal job ev : terminal (status job) → step job ev = job.
Proof. unfold Engine.step. by intros [-> | [-> | ->]]. Qed.

Lemma run_terminal job evs : terminal (status job) → run job evs = job.
Proof.
  intros Hterm. induction evs as [|ev evs IH] using rev_ind; [done|].
  rewrite run_snoc, IH. by apply step_terminal.
Qed.

(** Results are only ever appended. *)
Lemma step_results_prefix job ev : results job `prefix_of` results (step job ev).
Proof.
  unfold Engine.step.
  destruct (status job), ev; simpl; try done.
  - by destruct (validate _).
  - destruct (cancel_requested job); [done|].
    destruct (plan job) as [|b rest]; [done|].
    destruct (run_block_results b rest job) as (r & -> & _). by apply prefix_app_r.
Qed.

Lemma run_results_prefix job evs : results job `prefix_of` results (run job evs).
Proof.
  induction evs as [|ev evs IH] using rev_ind; [done|].
  rewrite run_snoc. etrans; [exact IH | apply step_results_prefix].
Qed.

Lemma step_frozen job job' ev :
  frozen_as job job' →
  frozen_as job (step job' ev) ∧ (ev = BlockBoundary → status (step job' ev) = cancelled).
Proof.
  intros (Hres & Hplan & Hstore & [[Hst Hreq] | Hst]).
  - unfold Engine.step. rewrite Hst, Hreq.
    destruct ev; simpl; (split; [|done]); repeat split; auto.
  - rewrite step_terminal by (rewrite Hst; right; by right).
    split; [|done]. repeat split; auto.
Qed.

Lemma run_frozen job job' evs :
  frozen_as job job' →
  frozen_as job (run job' evs)
  ∧ (BlockBoundary ∈ evs → status (run job' evs) = cancelled).
Proof.
  intros Hfrozen. induction evs as [|ev evs [IH Hseen]] using rev_ind.
  - split; [done | by intros ?%elem_of_nil].
  - rewrite run_snoc. destruct (step_frozen job (run job' evs) ev IH) as [Hnext Hnow].
    split; [done|].
    intros [Hin | Heq%list_elem_of_singleton]%elem_of_app; [|by apply Hnow].
    rewrite step_terminal; [by apply Hseen|]. rewrite Hseen by done. right. by right.
Qed.

(** C5.  When a cancellation is requested for a running job, whatever
    happens afterwards: the result sequence stays exactly what it was (every
    BlockResult of a completed block is kept, none is appended), the blocks
    that were queued stay queued (the next block is never started), and the
    job becomes cancelled at the first block boundary.  At any time the
    result sequence only grows at its end. *)
Theorem C5_cancellation_keeps_results_and_starts_no_block job evs :
  status job = running →
  let after := run (step job CancellationRequest) evs in
  results after = results job
  ∧ plan after = plan job
  ∧ store after = store job
  ∧ (status after = running ∨ status after = cancelled)
  ∧ (BlockBoundary ∈ evs → status after = cancelled)
  ∧ (∀ later, run after later = run (step job CancellationRequest) (evs ++ later)
              ∧ results (run after later) = results job)
  ∧ (∀ before earlier, job = run before earlier →
       results before `prefix_of` results after).
Proof.
  intros Hrunning after.
  assert (frozen_as job (step job CancellationRequest)) as Hfrozen.
  { unfold Engine.step. rewrite Hrunning. simpl. repeat split; auto. }
  destruct (run_frozen job _ evs Hfrozen) as [(Hres & Hplan & Hstore & Hst) Hseen].
  split_and!; try done.
  - destruct Hst as [[? _] | ?]; auto.
  - intros later. split.
    + unfold after, Engine.run. by rewrite foldl_app.
    + destruct (run_frozen job _ (evs ++ later) Hfrozen) as [(Hres' & _) _].
      unfold after, Engine.run in *. by rewrite <- foldl_app.
  - intros before earlier ->. fold after in Hres. rewrite Hres.
    apply run_results_prefix.
Qed.

(** C6.  The job status has exactly the five values pending, running,
    completed, failed and cancelled; an event changes it along
    pending→running, running→completed, running→failed or running→cancelled
    or leaves it alone; a job in completed, failed or cancelled is never
    changed again; and the job monitor offers the cancel request for a
    selected job whose status is running only. *)
Theorem C6_job_status_machine :
  (∀ s : JobStatus, s ∈ [pending; running; completed; failed; cancelled])
  ∧ NoDup [pending; running; completed; failed; cancelled]
  ∧ (∀ job ev,
       status (step job ev) = status job
       ∨ transition (status job) (status (step job ev)))
  ∧ (∀ job evs, terminal (status job) → run job evs = job)
  ∧ (∀ blocks, status (submitJob blocks) = pending)
  ∧ (∀ job, status job ≠ running → step job CancellationRequest = job)
  ∧ (∀ selectedJob jobId,
       JobMonitor.cancelJob jobId ∈ JobMonitor.header_buttons selectedJob →
       ∃ selected, selectedJob = Some selected
                   ∧ JobMonitor.job_id selected = jobId
                   ∧ JobMonitor.status selected = running).
Proof.
  split_and!.
  - intros []; set_solver.
  - apply (bool_decide_unpack _). by vm_compute.
  - apply step_transition.
  - apply run_terminal.
  - done.
  - intros job Hst. unfold Engine.step. by destruct (status job).
  - intros [selected|] jobId; simpl; [|by intros ?%elem_of_nil].
    case_decide; [|by intros ?%elem_of_nil].
    intros [= ->]%list_elem_of_singleton. by exists selected.
Qed.

End JobFacts.

(** ** The scenario, run *)

Section ScenarioRuns.

Import Engine.

(** The chain runs to completion; the rows without a company, and the row of
    another company, are filtered out; the row without a name fails to
    enrich and is kept. *)
Example scenario_completes :
  let job := Scenario.run (submitJob Scenario.chain)
               [ExecutionRequest; BlockBoundary; BlockBoundary; BlockBoundary;
                BlockBoundary; BlockBoundary] in
  status job = completed
  ∧ Scenario.row_counts job = [(4, 4); (4, 2); (2, 2); (2, 2)]
  ∧ store job !! "b3"
    = Some [ {[ "name" := JStr "Ada"; "company" := JStr "Acme"; "title" := JStr "CTO" ]};
             {[ "company" := JStr "Acme"; "error" := JStr "enrichment failed" ]} ].
Proof. vm_compute. done. Qed.

(** A circuit breaker that stays open fails the job at the enrich block:
    the blocks before it keep their results and the block after it is never
    run. *)
Example scenario_breaker_open :
  let job := Engine.run (λ _, BreakerOpenPastMaxWait) Scenario.read_leads Scenario.decode
               (λ _, None) "error" (λ _, "enrichment failed") 5
               (submitJob Scenario.chain)
               [ExecutionRequest; BlockBoundary; BlockBoundary; BlockBoundary;
                BlockBoundary; BlockBoundary] in
  status job = failed
  ∧ success <$> results job = [true; true; false]
  ∧ error_message job = Some CircuitOpenError
  ∧ id <$> plan job = ["b4"].
Proof. vm_compute. done. Qed.

(** A source that cannot be read fails the job at its first block. *)
Example scenario_fails :
  let job := Scenario.run
               (submitJob [mkBlock "b1" (load_table "missing.csv") None;
                           mkBlock "b2" (persist_table None) (Some "b1")])
               [ExecutionRequest; BlockBoundary; BlockBoundary] in
  status job = failed ∧ success <$> results job = [false]
  ∧ error_message job = Some SourceReadError.
Proof. vm_compute. done. Qed.

Lemma C5_cancellation_witness :
  let job := Scenario.run (submitJob Scenario.chain)
               [ExecutionRequest; BlockBoundary; BlockBoundary] in
  let after := Scenario.run job [CancellationRequest; BlockBoundary; BlockBoundary] in
  status job = running
  ∧ results after = results job
  ∧ plan after = plan job
  ∧ status after = cancelled.
Proof.
  intros job after.
  assert (status job = running) as Hrunning by (vm_compute; reflexivity).
  destruct (C5_cancellation_keeps_results_and_starts_no_block
              Scenario.stub_service Scenario.read_leads Scenario.decode (λ _, None)
              "error" (λ _, "enrichment failed") 5 job [BlockBoundary; BlockBoundary]
              Hrunning)
    as (Hres & Hplan & _ & _ & Hcancelled & _).
  split_and!; [exact Hrunning | exact Hres | exact Hplan |].
  apply Hcancelled. by left.
Defined.

Lemma C6_job_status_witness :
  let job := Scenario.run (submitJob Scenario.chain)
               [ExecutionRequest; BlockBoundary; CancellationRequest; BlockBoundary] in
  status job = cancelled
  ∧ Scenario.run job [BlockBoundary; ExecutionRequest; CancellationRequest] = job
  ∧ JobMonitor.header_buttons (Some (JobMonitor.mkJob "j1" (status job))) = [].
Proof.
  intros job.
  assert (status job = cancelled) as Hcancelled by (vm_compute; reflexivity).
  destruct (C6_job_status_machine
              Scenario.stub_service Scenario.read_leads Scenario.decode (λ _, None)
              "error" (λ _, "enrichment failed") 5)
    as (_ & _ & _ & Hterminal & _).
  split_and!; [exact Hcancelled | | by rewrite Hcancelled].
  apply Hterminal. rewrite Hcancelled. right. by right.
Defined.

End ScenarioRuns.

(** * Further properties of the builder *)

Section BuilderAlgebra.

Import WorkflowBuilder Graph.

Implicit Types (st : state).

Lemma filter_all {A : Type} (P : A → Prop) `{!∀ x, Decision (P x)} (l : list A) :
  Forall P l → filter P l = l.
Proof.
  induction 1 as [|x l Hx _ IH]; [done|].
  rewrite filter_cons_True by done. by rewrite IH.
Qed.

Lemma state_eq st st' :
  blocks st = blocks st' → connections st = connections st' →
  connectingFrom st = connectingFrom st' → isConnecting st = isConnecting st' →
  st = st'.
Proof. destruct st, st'; simpl; congruence. Qed.

(** X1.  [removeConnection] removes exactly the connections with the given
    id, in place, and nothing else; removing an id that no connection has, or
    removing twice, changes nothing; and once the connection of a pair is
    removed the pair can be connected again. *)
Theorem removeConnection_removes_exactly_that_id connectionId st :
  let st' := (removeConnection connectionId st).1 in
  (∀ conn, conn ∈ connections st'
           ↔ conn ∈ connections st ∧ connection_id conn ≠ connectionId)
  ∧ connections st' `sublist_of` connections st
  ∧ blocks st' = blocks st
  ∧ connectingFrom st' = connectingFrom st ∧ isConnecting st' = isConnecting st
  ∧ (removeConnection connectionId st').1 = st'
  ∧ (connectionId ∉ connection_id <$> connections st → st' = st)
  ∧ (∀ conn uuid,
       well_connected (connections st) →
       conn ∈ connections st → connection_id conn = connectionId →
       connections (connectBlocks (source_block_id conn) (target_block_id conn) uuid st').1
       = connections st'
         ++ [mkWorkflowConnection uuid (source_block_id conn) (target_block_id conn)]).
Proof.
  intros st'. split_and!; try done.
  - intros conn. subst st'. simpl. rewrite list_elem_of_filter. tauto.
  - apply sublist_filter.
  - apply state_eq; try done. simpl.
    apply list_filter_filter_l. tauto.
  - intros Hfresh. apply state_eq; try done. simpl.
    apply filter_all, Forall_forall. intros conn Hin Heq.
    apply Hfresh, list_elem_of_fmap. eauto.
  - intros conn uuid [Hloop Hdup] Hin Hid.
    rewrite connectBlocks_connections. rewrite decide_False; [done|].
    intros [Hself | Hpair]; [by apply (Hloop conn)|].
    apply list_elem_of_fmap in Hpair as (other & Hpair & Hother).
    subst st'. simpl in Hother. apply list_elem_of_filter in Hother as [Hne Hother].
    assert (other = conn); [|congruence].
    unfold no_duplicate_pair in Hdup.
    apply (NoDup_fmap_1 pair_of) in Hdup as Hnodup.
    apply list_elem_of_lookup in Hin as [i Hi].
    apply list_elem_of_lookup in Hother as [j Hj].
    assert (i = j); [|congruence].
    eapply NoDup_lookup; [exact Hdup| |].
    + rewrite list_lookup_fmap, Hi. done.
    + rewrite list_lookup_fmap, Hj. unfold pair_of in *. simpl. congruence.
Qed.

Lemma removeConnection_witness :
  let st := (connectBlocks "A" "B" "c1" initial).1 in
  connections (connectBlocks "A" "B" "c2" (removeConnection "c1" st).1).1
  = [mkWorkflowConnection "c2" "A" "B"].
Proof.
  intros st.
  destruct (removeConnection_removes_exactly_that_id "c1" st)
    as (_ & _ & _ & _ & _ & _ & _ & Hagain).
  apply (Hagain (mkWorkflowConnection "c1" "A" "B") "c2").
  - apply (connectBlocks_well_connected "A" "B" "c1" initial), well_connected_nil.
  - by left.
  - reflexivity.
Defined.



(** X3.  [removeBlock] with an id that no block has and no connection
    mentions changes nothing; removing the same block twice is removing it
    once; and two blocks can be removed in either order. *)
Theorem removeBlock_idempotent_and_commutes a b st :
  (removeBlock a (removeBlock a st).1).1 = (removeBlock a st).1
  ∧ (removeBlock a (removeBlock b st).1).1 = (removeBlock b (removeBlock a st).1).1
  ∧ (a ∉ block_id <$> blocks st →
     Forall (λ conn, source_block_id conn ≠ a ∧ target_block_id conn ≠ a)
       (connections st) →
     (removeBlock a st).1 = st).
Proof.
  split_and!.
  - apply state_eq; try done; simpl; apply list_filter_filter_l; tauto.
  - apply state_eq; try done; simpl; rewrite !list_filter_filter;
      apply list_filter_iff; tauto.
  - intros Habsent Hconns. apply state_eq; try done; simpl.
    + apply filter_all, Forall_forall. intros blk Hin Heq.
      apply Habsent, list_elem_of_fmap. eauto.
    + by apply filter_all.
Qed.

Lemma removeBlock_absent_witness :
  let st := (connectBlocks "A" "B" "c1" initial).1 in
  (removeBlock "C" st).1 = st.
Proof.
  intros st.
  apply (removeBlock_idempotent_and_commutes "C" "C" st).
  - vm_compute. by intros ?%elem_of_nil.
  - repeat constructor; discriminate.
Defined.

(** The connection mode is on exactly while a source is recorded. *)
Lemma apply_mode st c :
  (isConnecting st = true ↔ is_Some (connectingFrom st)) →
  (isConnecting (Calls.apply st c) = true ↔ is_Some (connectingFrom (Calls.apply st c))).
Proof.
  intros Hmode.
  assert (∀ st', isConnecting st' = false → connectingFrom st' = None →
            (isConnecting st' = true ↔ is_Some (connectingFrom st'))) as Hoff.
  { intros st' -> ->. split; [done | by intros [? ?]]. }
  destruct c as [fuel blockType [p|] uuid| | | | | |targetId uuid|]; simpl; try done.
  - unfold Part002.addBlock, addBlock. simpl.
    by destruct (findFreePosition _ _ _ _).
  - unfold connectBlocks. destruct (list_find _ _); [done|]. by case_decide.
  - unfold finishConnection.
    destruct (negb (truthy_string (connectingFrom st)) || negb (isConnecting st)); [done|].
    destruct (list_find _ _); [by apply Hoff|].
    case_decide; by apply Hoff.
Qed.

(** X4.  After any sequence of handler calls the connection mode is on
    exactly when a source block is recorded; [finishConnection] that finds a
    connection in progress always ends the mode, whether it connects or
    rejects, and never touches the blocks; [cancelConnection] after
    [startConnection] leaves blocks and connections as they were. *)
Theorem connection_mode_is_consistent :
  (∀ cs, isConnecting (Calls.run cs) = true ↔ is_Some (connectingFrom (Calls.run cs)))
  ∧ (∀ targetId uuid st,
       truthy_string (connectingFrom st) = true → isConnecting st = true →
       isConnecting (finishConnection targetId uuid st).1 = false
       ∧ connectingFrom (finishConnection targetId uuid st).1 = None
       ∧ blocks (finishConnection targetId uuid st).1 = blocks st
       ∧ ∃ msg, (finishConnection targetId uuid st).2 = [msg])
  ∧ (∀ blockId st,
       blocks (cancelConnection (startConnection blockId st).1).1 = blocks st
       ∧ connections (cancelConnection (startConnection blockId st).1).1 = connections st
       ∧ isConnecting (cancelConnection (startConnection blockId st).1).1 = false).
Proof.
  split_and!.
  - intros cs. unfold Calls.run. induction cs as [|c cs IH] using rev_ind.
    + simpl. split; [done | by intros [? ?]].
    + rewrite foldl_snoc. by apply apply_mode.
  - intros targetId uuid st Hfrom Hconn. unfold finishConnection.
    rewrite Hfrom, Hconn. simpl.
    destruct (list_find _ _); simpl; [by eauto|].
    case_decide; simpl; by eauto.
  - done.
Qed.

Lemma connection_mode_witness :
  let st := (startConnection "A" initial).1 in
  isConnecting (finishConnection "A" "c1" st).1 = false
  ∧ connections (finishConnection "A" "c1" st).1 = [].
Proof.
  intros st.
  destruct connection_mode_is_consistent as (_ & Hfinish & _).
  destruct (Hfinish "A" "c1" st eq_refl eq_refl) as (Hoff & _).
  split; [exact Hoff | reflexivity].
Defined.

End BuilderAlgebra.

(** * Further properties of the free-position search *)

Section GridSearch.

Import WorkflowBuilder Grid.

Implicit Types (ps : list Position.t).

Lemma cell_0 : cell 0 = (200, 200)%Z.
Proof. reflexivity. Qed.

(** The loop body moves from a cell to the next one. *)
Lemma cell_next k :
  let x := ((cell k).1 + 250)%Z in
  (if decide (800 < x)%Z then (200%Z, ((cell k).2 + 160)%Z) else (x, (cell k).2))
  = cell (S k).
Proof.
  unfold cell. cbn [fst snd].
  pose proof (Nat.div_mod_eq k 3). pose proof (Nat.mod_upper_bound k 3).
  pose proof (Nat.div_mod_eq (S k) 3). pose proof (Nat.mod_upper_bound (S k) 3).
  case_decide; f_equal; lia.
Qed.

Lemma findFreePosition_cell ps fuel k :
  findFreePosition (S fuel) ps (cell k).1 (cell k).2
  = if decide (Exists (overlaps (cell k).1 (cell k).2) ps)
    then findFreePosition fuel ps (cell (S k)).1 (cell (S k)).2
    else Some (cell k).
Proof.
  cbn [findFreePosition]. case_decide; [|by destruct (cell k)].
  rewrite <- (cell_next k). by case_decide.
Qed.

Lemma search_from_cell ps : ∀ fuel i found,
  findFreePosition fuel ps (cell i).1 (cell i).2 = Some found →
  ∃ k, i ≤ k ∧ found = cell k
       ∧ (∀ t, i ≤ t < k → Exists (overlaps (cell t).1 (cell t).2) ps)
       ∧ ¬ Exists (overlaps found.1 found.2) ps.
Proof.
  induction fuel as [|fuel IH]; intros i found; [done|].
  rewrite findFreePosition_cell. case_decide as Hblocked.
  - intros (k & Hle & -> & Hbefore & Hfree)%IH.
    exists k. split_and!; [lia | done | | done].
    intros t Ht. destruct (decide (t = i)) as [->|]; [done|]. apply Hbefore. lia.
  - intros [= <-]. exists i. split_and!; [done | done | lia | done].
Qed.

(** X5.  The position the free-position search returns is a cell of the
    grid with columns 200, 450, 700 and rows 200, 360, 520, ..., and it is the
    first cell, row by row from the left, that no existing block overlaps:
    every earlier cell is overlapped by some block. *)
Theorem findFreePosition_returns_first_free_cell ps fuel x y :
  findFreePosition fuel ps 200 200 = Some (x, y) →
  ∃ k, (x, y) = cell k
       ∧ (x = 200 ∨ x = 450 ∨ x = 700)%Z
       ∧ (∃ row : nat, y = 200 + 160 * Z.of_nat row)%Z
       ∧ (∀ t, t < k → Exists (overlaps (cell t).1 (cell t).2) ps)
       ∧ ¬ Exists (overlaps x y) ps.
Proof.
  intros Hfound. apply (search_from_cell ps fuel 0) in Hfound
    as (k & _ & Hcell & Hbefore & Hfree).
  exists k. split_and!; [done | | | |done].
  - injection Hcell as -> _. pose proof (Nat.mod_upper_bound k 3).
    destruct (k mod 3) as [|[|[|?]]]; simpl; (lia || auto).
  - injection Hcell as _ ->. by exists (k / 3).
  - intros t Ht. apply Hbefore. lia.
Qed.

Lemma findFreePosition_first_free_witness :
  ∃ k, (200, 360)%Z = cell k
       ∧ ∀ t, t < k →
           Exists (overlaps (cell t).1 (cell t).2)
             [Position.mk 200 200; Position.mk 450 200; Position.mk (1401 # 2) 330].
Proof.
  destruct (findFreePosition_returns_first_free_cell
              [Position.mk 200 200; Position.mk 450 200; Position.mk (1401 # 2) 330]
              19 200 360) as (k & Hcell & _ & _ & Hbefore & _).
  - vm_compute. reflexivity.
  - exists k. split; [exact Hcell | exact Hbefore].
Defined.

Lemma Qabs_inject_lt (a b c : Z) :
  (Qabs (inject_Z a - inject_Z b) < inject_Z c)%Q ↔ (Z.abs (a - b) < c)%Z.
Proof.
  rewrite Qabs_Qlt_condition. unfold Qminus.
  rewrite <- !inject_Z_opp, <- inject_Z_plus, <- !Zlt_Qlt. lia.
Qed.

(** Two cells of the grid overlap only if they are the same cell. *)
Lemma cell_overlaps_cell s t :
  overlaps (cell t).1 (cell t).2 (cell_position s) ↔ s = t.
Proof.
  unfold overlaps, cell_position, cell. cbn [fst snd Position.x Position.y].
  change (220%Q) with (inject_Z 220). change (140%Q) with (inject_Z 140).
  rewrite !Qabs_inject_lt.
  pose proof (Nat.div_mod_eq s 3). pose proof (Nat.mod_upper_bound s 3).
  pose proof (Nat.div_mod_eq t 3). pose proof (Nat.mod_upper_bound t 3).
  split; [|intros ->]; lia.
Qed.

Lemma cells_blocked n t :
  Exists (overlaps (cell t).1 (cell t).2) (cell_position <$> seq 0 n) ↔ t < n.
Proof.
  rewrite Exists_exists. split.
  - intros (pos & (s & -> & Hs%elem_of_seq)%list_elem_of_fmap & ->%cell_overlaps_cell). lia.
  - intros Ht. exists (cell_position t). split; [|by apply cell_overlaps_cell].
    apply list_elem_of_fmap. exists t. split; [done|]. apply elem_of_seq. lia.
Qed.

Lemma search_filled_grid n : ∀ j i fuel,
  i + j = n → j + 1 ≤ fuel →
  findFreePosition fuel (cell_position <$> seq 0 n) (cell i).1 (cell i).2 = Some (cell n).
Proof.
  induction j as [|j IH]; intros i fuel Hn Hfuel;
    (destruct fuel as [|fuel]; [lia|]); rewrite findFreePosition_cell.
  - rewrite decide_False; [f_equal; f_equal; lia|]. rewrite cells_blocked. lia.
  - rewrite decide_True by (rewrite cells_blocked; lia). apply IH; lia.
Qed.

Lemma palette_click_on_filled_grid blockType uuid st :
  existingPositions st = cell_position <$> seq 0 (length (blocks st)) →
  ∃ newBlock,
    blocks (Canvas.ui_step st (Canvas.palette_click blockType uuid))
    = blocks st ++ [newBlock]
    ∧ block_id newBlock = uuid ∧ block_type newBlock = blockType
    ∧ position newBlock = cell_position (length (blocks st)).
Proof.
  intros Hgrid. cbn [Canvas.ui_step]. unfold Part002.addBlock, addBlock.
  rewrite Hgrid.
  pose proof (search_filled_grid (length (blocks st)) (length (blocks st)) 0
                (Canvas.search_fuel st) eq_refl) as Hfound.
  change (cell 0).1 with 200%Z in Hfound. change (cell 0).2 with 200%Z in Hfound.
  rewrite Hfound by (unfold Canvas.search_fuel; lia).
  simpl. by eexists.
Qed.

(** X6.  Clicking the palette [n] times on the empty canvas lays the blocks
    out on the grid in reading order, three to a row, the k-th block on cell
    k, in the order and with the types of the clicks; no two of them
    overlap. *)
Theorem palette_clicks_fill_the_grid (clicks : list (string * string)) :
  let st := palette_clicks clicks initial in
  position <$> blocks st = cell_position <$> seq 0 (length clicks)
  ∧ block_type <$> blocks st = clicks.*1
  ∧ block_id <$> blocks st = clicks.*2
  ∧ connections st = []
  ∧ (∀ i j p q, (position <$> blocks st) !! i = Some p →
       (position <$> blocks st) !! j = Some q → i ≠ j →
       ¬ ((Qabs (Position.x p - Position.x q) < 220)%Q
          ∧ (Qabs (Position.y p - Position.y q) < 140)%Q)).
Proof.
  intros st.
  assert (position <$> blocks st = cell_position <$> seq 0 (length clicks)
          ∧ block_type <$> blocks st = clicks.*1
          ∧ block_id <$> blocks st = clicks.*2
          ∧ connections st = []) as (Hpos & Hty & Hid & Hconn).
  { subst st. unfold palette_clicks.
    induction clicks as [|[blockType uuid] clicks IH] using rev_ind; [done|].
    rewrite foldl_snoc. cbv beta. cbn [fst snd].
    destruct IH as (Hpos & Hty & Hid & Hconn).
    set (st := foldl _ initial clicks) in *.
    assert (length (blocks st) = length clicks) as Hlen.
    { rewrite <- (length_fmap position), Hpos, length_fmap. apply length_seq. }
    destruct (palette_click_on_filled_grid blockType uuid st)
      as (newBlock & Hblocks & Hnid & Hnty & Hnpos).
    { unfold existingPositions. by rewrite Hpos, Hlen. }
    rewrite Hblocks, !fmap_app, length_app, seq_app, fmap_app, Hpos, Hty, Hid.
    cbn [fmap list_fmap length seq fst snd]. rewrite Hnid, Hnty, Hnpos, Hlen.
    split_and!; try done.
    cbn [Canvas.ui_step]. unfold Part002.addBlock, addBlock. cbn [mbind option_bind].
    by destruct (findFreePosition _ _ _ _). }
  split_and!; try done.
  rewrite Hpos. intros i j p q Hp Hq Hne.
  rewrite list_lookup_fmap in Hp, Hq.
  apply fmap_Some in Hp as (s & Hs & ->). apply fmap_Some in Hq as (t & Ht & ->).
  apply lookup_seq in Hs as [-> _]. apply lookup_seq in Ht as [-> _]. simpl in *.
  intros Hover.
  assert (overlaps (cell j).1 (cell j).2 (cell_position i)) as Hcells by exact Hover.
  apply cell_overlaps_cell in Hcells. done.
Qed.

End GridSearch.

Lemma palette_clicks_witness :
  let clicks := [("read_csv", "a"); ("filter", "b"); ("enrich_lead", "c");
                 ("save_csv", "d")] in
  position <$> WorkflowBuilder.blocks (Grid.palette_clicks clicks WorkflowBuilder.initial)
  = Grid.cell_position <$> [0; 1; 2; 3].
Proof.
  intros clicks. exact (proj1 (palette_clicks_fill_the_grid clicks)).
Defined.

(** * Dragging and dropping *)

Section DragAndDrop.

Import WorkflowBuilder Drag.

Lemma clamp_spec (lo hi v : Q) :
  let c := Qmax lo (Qmin hi v) in
  (lo <= c)%Q
  ∧ ((lo <= hi)%Q → (c <= hi)%Q)
  ∧ ((hi < lo)%Q → (c == lo)%Q)
  ∧ ((lo <= v)%Q → (v <= hi)%Q → (c == v)%Q).
Proof.
  intros c. subst c.
  destruct (Q.max_spec lo (Qmin hi v)) as [[Hlt Hmax] | [Hle Hmax]];
    destruct (Q.min_spec hi v) as [[Hlt' Hmin] | [Hle' Hmin]];
    rewrite Hmax; rewrite ?Hmin in *; split_and!; intros; lra.
Qed.

(** X7.  While a block is dragged its centre stays at least 100 from the
    left and 60 from the top of the canvas and, on a canvas at least 200 wide
    and 120 high, at least 100 from the right and 60 from the bottom; on a
    smaller canvas it sticks to the left or top bound.  A pointer position
    inside the bounds is followed exactly.  The move changes the position of
    the dragged block only, and a mouse press starts a drag only for an
    existing block on a mounted canvas. *)
Theorem drag_keeps_the_block_on_the_canvas rect dragOffset blockId e st :
  let st' := (handleGlobalMouseMove rect dragOffset blockId e st).1 in
  let newX := (clientX e - left rect - Position.x dragOffset)%Q in
  let newY := (clientY e - top rect - Position.y dragOffset)%Q in
  (∀ i b, blocks st !! i = Some b →
     ∃ b', blocks st' !! i = Some b'
           ∧ block_id b' = block_id b ∧ parameters b' = parameters b
           ∧ (block_id b ≠ blockId → b' = b)
           ∧ (block_id b = blockId →
              (100 <= Position.x (position b'))%Q
              ∧ (60 <= Position.y (position b'))%Q
              ∧ ((200 <= width rect)%Q → (Position.x (position b') <= width rect - 100)%Q)
              ∧ ((120 <= height rect)%Q → (Position.y (position b') <= height rect - 60)%Q)
              ∧ ((width rect < 200)%Q → (Position.x (position b') == 100)%Q)
              ∧ ((height rect < 120)%Q → (Position.y (position b') == 60)%Q)
              ∧ ((100 <= newX)%Q → (newX <= width rect - 100)%Q →
                 (Position.x (position b') == newX)%Q)
              ∧ ((60 <= newY)%Q → (newY <= height rect - 60)%Q →
                 (Position.y (position b') == newY)%Q)))
  ∧ length (blocks st') = length (blocks st)
  ∧ connections st' = connections st
  ∧ (∀ event rect' offset,
       handleMouseDown blockId event rect' offset st = None
       ↔ blockId ∉ block_id <$> blocks st ∨ rect' = None).
Proof.
  intros st' newX newY. split_and!.
  - intros i b Hb. subst st'. unfold handleGlobalMouseMove. simpl.
    rewrite list_lookup_fmap, Hb. simpl. eexists. split; [done|].
    case_decide as Hid; simpl; split_and!; try done.
    intros _.
    destruct (clamp_spec 100 (width rect - 100) newX) as (Hx1 & Hx2 & Hx3 & Hx4).
    destruct (clamp_spec 60 (height rect - 60) newY) as (Hy1 & Hy2 & Hy3 & Hy4).
    split_and!; try done.
    + intros Hw. apply Hx2. lra.
    + intros Hh. apply Hy2. lra.
    + intros Hw. apply Hx3. lra.
    + intros Hh. apply Hy3. lra.
  - subst st'. unfold handleGlobalMouseMove. simpl. by rewrite length_fmap.
  - done.
  - intros event rect' offset. unfold handleMouseDown.
    destruct (list_find _ _) as [[i b]|] eqn:Hfind; simpl.
    + apply list_find_Some in Hfind as (Hi & Hb & _).
      destruct rect' as [r|]; simpl; split; try done; [|by right].
      intros [Habsent | ?]; [|done]. destruct Habsent.
      apply list_elem_of_fmap. exists b. split; [done|]. by eapply list_elem_of_lookup_2.
    + split; [|done]. intros _. left.
      apply list_find_None in Hfind. rewrite Forall_forall in Hfind.
      intros (b & -> & Hin)%list_elem_of_fmap. by apply (Hfind b).
Qed.

Lemma drag_witness :
  let st := {| blocks := [mkBlockConfig "A" "filter" "Filter" ∅ (Position.mk 200 200)];
               connections := []; connectingFrom := None; isConnecting := false |} in
  let rect := mkRect 320 0 150 600 in
  ∃ b', blocks (handleGlobalMouseMove rect (Position.mk 0 0) "A" (mkMouse 400 300) st).1 !! 0
        = Some b'
        ∧ (Position.x (position b') == 100)%Q
        ∧ (Position.y (position b') == 300)%Q.
Proof.
  intros st rect.
  destruct (drag_keeps_the_block_on_the_canvas rect (Position.mk 0 0) "A"
              (mkMouse 400 300) st) as (Hblocks & _).
  destruct (Hblocks 0 (mkBlockConfig "A" "filter" "Filter" ∅ (Position.mk 200 200)) eq_refl)
    as (b' & Hb' & _ & _ & _ & Hdragged).
  destruct (Hdragged eq_refl) as (_ & _ & _ & _ & Hnarrow & _ & _ & Hinside).
  exists b'. split_and!; [exact Hb' | |].
  - apply Hnarrow. reflexivity.
  - apply Hinside; vm_compute; discriminate.
Defined.

(** X8.  A block dropped from the palette is placed where it is dropped
    without any search, whatever blocks are there already, except that a
    coordinate equal to zero is replaced by 200; the drop always adds exactly
    one block with a fresh default configuration and leaves the connections
    alone. *)
Theorem drop_places_the_block_at_the_pointer getDefaultParameters fuel blockType
    (p : Position.t) uuid st :
  ∃ newBlock toasts,
    addBlock getDefaultParameters fuel blockType (Some p) uuid st
    = Some (setBlocks (λ prev, prev ++ [newBlock]) st, toasts)
    ∧ block_id newBlock = uuid
    ∧ parameters newBlock = getDefaultParameters blockType
    ∧ (Position.x (position newBlock) == (if Qeq_bool (Position.x p) 0 then 200
                                          else Position.x p))%Q
    ∧ (Position.y (position newBlock) == (if Qeq_bool (Position.y p) 0 then 200
                                          else Position.y p))%Q
    ∧ (¬ (Position.x p == 0)%Q → Position.x (position newBlock) = Position.x p)
    ∧ (¬ (Position.y p == 0)%Q → Position.y (position newBlock) = Position.y p)
    ∧ ((Position.x p == 0)%Q → Position.x (position newBlock) = 200%Q)
    ∧ ((Position.y p == 0)%Q → Position.y (position newBlock) = 200%Q).
Proof.
  unfold addBlock. simpl. do 2 eexists. split; [done|]. simpl.
  unfold coord_or_200.
  split_and!; try done.
  - intros Hx. destruct (Qeq_bool (Position.x p) 0) eqn:Heq; [|done].
    by apply Qeq_bool_eq in Heq.
  - intros Hy. destruct (Qeq_bool (Position.y p) 0) eqn:Heq; [|done].
    by apply Qeq_bool_eq in Heq.
  - intros Hx. by rewrite (Qeq_eq_bool _ _ Hx).
  - intros Hy. by rewrite (Qeq_eq_bool _ _ Hy).
Qed.

Lemma drop_witness :
  ∃ newBlock toasts,
    Part002.addBlock 0 "filter" (Some (Position.mk 0 330)) "B"
      {| blocks := [mkBlockConfig "A" "filter" "Filter" ∅ (Position.mk 200 330)];
         connections := []; connectingFrom := None; isConnecting := false |}
    = Some ({| blocks := [mkBlockConfig "A" "filter" "Filter" ∅ (Position.mk 200 330);
                          newBlock];
               connections := []; connectingFrom := None; isConnecting := false |}, toasts)
    ∧ position newBlock = Position.mk 200 330.
Proof.
  destruct (drop_places_the_block_at_the_pointer Part002.getDefaultParameters 0 "filter"
              (Position.mk 0 330) "B"
              {| blocks := [mkBlockConfig "A" "filter" "Filter" ∅ (Position.mk 200 330)];
                 connections := []; connectingFrom := None; isConnecting := false |})
    as (newBlock & toasts & Hadd & _ & _ & _ & _ & _ & Hy & Hx & _).
  exists newBlock, toasts. split; [exact Hadd|].
  destruct newBlock as [? ? ? ? [x y]]. simpl in *.
  f_equal; [by apply Hx | apply Hy; vm_compute; discriminate].
Defined.

End DragAndDrop.

(** * Saving and executing *)

Section PersistenceFacts.

Import WorkflowBuilder Persistence.

Implicit Types (st : state) (c : cells).

Lemma saveWorkflow_keeps_saved_id st c response id :
  savedWorkflowId c = Some id → id ≠ "" →
  let e := saveWorkflow st c response in
  savedWorkflowId (after e) = Some id
  ∧ workflowName (after e) = workflowName c
  ∧ Forall (λ call, call = updateWorkflow id (workflow_of st c)) (calls e).
Proof.
  intros Hid Hne. unfold saveWorkflow. rewrite Hid.
  case_decide; simpl; [done|].
  destruct (String.eqb_spec id "") as [|_]; [done|]. simpl.
  destruct response; simpl; split_and!; try done; by repeat constructor.
Qed.

Lemma saves_keep_saved_id st id : ∀ responses c,
  savedWorkflowId c = Some id → id ≠ "" →
  let r := presses st c (press_save <$> responses) in
  savedWorkflowId r.1 = Some id
  ∧ workflowName r.1 = workflowName c
  ∧ Forall (λ call, call = updateWorkflow id (workflow_of st c)) r.2.
Proof.
  intros responses c Hid Hne. cbv zeta. unfold presses.
  induction responses as [|response responses IH] using rev_ind; [done|].
  rewrite fmap_app, foldl_app. simpl.
  destruct IH as (Hid' & Hname & Hcalls).
  set (acc := foldl _ (c, []) (press_save <$> responses)) in *.
  destruct (saveWorkflow_keeps_saved_id st acc.1 response id Hid' Hne)
    as (Hid'' & Hname' & Hcalls').
  split_and!; [done | congruence |].
  apply Forall_app. split; [done|].
  eapply Forall_impl; [exact Hcalls'|]. intros call ->.
  unfold workflow_of. by rewrite Hname.
Qed.

(** X9.  [saveWorkflow] does nothing but raise an error toast while the
    canvas has no block.  Otherwise it makes exactly one API call and ends
    with [isSaving] off, whether the call succeeds or fails: a workflow
    without a saved id is created, and remembers the id of the created
    workflow only if the call resolves; once an id is remembered every
    further save, successful or not, is an update of that id and the id
    never changes. *)
Theorem saveWorkflow_creates_once_then_updates st c :
  (length (blocks st) = 0 →
   ∀ response,
     saveWorkflow st c response
     = {| after := c; toasts := [toast_error "Add at least one block to save workflow"];
          calls := []; jobs_created := [] |})
  ∧ (length (blocks st) ≠ 0 →
     ∀ response,
       let e := saveWorkflow st c response in
       isSaving (after e) = false
       ∧ isExecuting (after e) = isExecuting c
       ∧ workflowName (after e) = workflowName c
       ∧ jobs_created e = []
       ∧ (∃ msg, toasts e = [msg])
       ∧ calls e = [if truthy_string (savedWorkflowId c)
                    then updateWorkflow (default "" (savedWorkflowId c)) (workflow_of st c)
                    else createWorkflow (workflow_of st c)]
       ∧ (truthy_string (savedWorkflowId c) = false →
          savedWorkflowId (after e)
          = match response with
            | resolved workflow_id => Some workflow_id
            | rejected _ => savedWorkflowId c
            end))
  ∧ (∀ id responses,
       savedWorkflowId c = Some id → id ≠ "" →
       let r := presses st c (press_save <$> responses) in
       savedWorkflowId r.1 = Some id
       ∧ Forall (λ call, call = updateWorkflow id (workflow_of st c)) r.2).
Proof.
  split_and!.
  - intros Hempty response. unfold saveWorkflow. by rewrite decide_True.
  - intros Hblocks response. unfold saveWorkflow. rewrite decide_False by done.
    destruct (truthy_string (savedWorkflowId c)); destruct response; simpl;
      split_and!; try done; by eexists.
  - intros id responses Hid Hne.
    destruct (saves_keep_saved_id st id responses c Hid Hne) as (? & _ & ?). done.
Qed.

Lemma saveWorkflow_witness :
  let st := {| blocks := [mkBlockConfig "A" "filter" "Filter" ∅ (Position.mk 200 200)];
               connections := []; connectingFrom := None; isConnecting := false |} in
  let saved := after (saveWorkflow st initial_cells (resolved "w1")) in
  savedWorkflowId saved = Some "w1"
  ∧ savedWorkflowId
      (presses st saved (press_save <$> [rejected None; resolved "w2"])).1 = Some "w1".
Proof.
  intros st saved. split; [reflexivity|].
  destruct (saveWorkflow_creates_once_then_updates st saved) as (_ & _ & Hkeep).
  apply (Hkeep "w1" [rejected None; resolved "w2"]); [reflexivity | discriminate].
Defined.

(** X10.  [executeWorkflow] does nothing but raise an error toast while the
    canvas has no block.  Otherwise it always creates the workflow anew, even
    when the workflow was saved before, and never updates; it asks to execute
    exactly the workflow that create returned, and only if create resolved;
    [onJobCreated] receives the job id exactly when both calls resolved; and
    it ends with [isExecuting] off and the saved id untouched in every
    case. *)
Theorem executeWorkflow_always_creates_a_new_workflow st c created executed :
  let e := executeWorkflow st c created executed in
  savedWorkflowId (after e) = savedWorkflowId c
  ∧ workflowName (after e) = workflowName c
  ∧ isSaving (after e) = isSaving c
  ∧ (length (blocks st) = 0 →
     e = {| after := c;
            toasts := [toast_error "Add at least one block to execute workflow"];
            calls := []; jobs_created := [] |})
  ∧ (length (blocks st) ≠ 0 →
     isExecuting (after e) = false
     ∧ calls e = createWorkflow (workflow_of st c)
                 :: match created with
                    | resolved workflow_id => [executeWorkflow_call workflow_id]
                    | rejected _ => []
                    end
     ∧ jobs_created e = match created, executed with
                        | resolved _, resolved job_id => [job_id]
                        | _, _ => []
                        end)
  ∧ (∀ id w, updateWorkflow id w ∉ calls e).
Proof.
  intros e. subst e. unfold executeWorkflow.
  case_decide as Hblocks.
  - split_and!; try done. intros id w Hin. by apply elem_of_nil in Hin.
  - destruct created, executed; simpl; split_and!; try done;
      intros id w Hin; repeat (apply elem_of_cons in Hin as [Hin | Hin]; [done|]);
      by apply elem_of_nil in Hin.
Qed.

Lemma executeWorkflow_witness :
  let st := {| blocks := [mkBlockConfig "A" "filter" "Filter" ∅ (Position.mk 200 200)];
               connections := []; connectingFrom := None; isConnecting := false |} in
  let saved := after (saveWorkflow st initial_cells (resolved "w1")) in
  let e := executeWorkflow st saved (resolved "w2") (resolved "j1") in
  calls e = [createWorkflow (workflow_of st saved); executeWorkflow_call "w2"]
  ∧ jobs_created e = ["j1"]
  ∧ savedWorkflowId (after e) = Some "w1".
Proof.
  intros st saved e.
  destruct (executeWorkflow_always_creates_a_new_workflow st saved (resolved "w2")
              (resolved "j1")) as (Hid & _ & _ & _ & Hrun & _).
  destruct Hrun as (_ & Hcalls & Hjobs); [vm_compute; discriminate|].
  split_and!; [exact Hcalls | exact Hjobs | exact Hid].
Defined.

End PersistenceFacts.

(** * The job monitor and the results panel *)

Section Durations.

Import JobMonitorView.

(** X11.  [formatDuration] shows whole seconds below a minute, minutes and
    seconds (both below 60, together the exact duration) below an hour, and
    hours and minutes from an hour on, where the seconds are dropped: the
    text then stands for a whole minute of durations.  Less than a second
    shows as "0s", and an end before the start shows as a negative number of
    seconds. *)
Theorem formatDuration_units (start : Z) (end_ : option Z) (now : Z) :
  let elapsed := (default now end_ - start)%Z in
  let duration := (elapsed / 1000)%Z in
  let text := formatDuration start end_ now in
  ((duration < 60)%Z → text = pretty duration +:+ "s")
  ∧ ((0 <= elapsed < 1000)%Z → text = "0s")
  ∧ ((elapsed < 0)%Z → ∃ n : positive, text = "-" +:+ pretty n +:+ "s")
  ∧ ((60 <= duration < 3600)%Z →
     ∃ m s, text = pretty m +:+ "m " +:+ pretty s +:+ "s"
            ∧ (1 <= m < 60)%Z ∧ (0 <= s < 60)%Z ∧ (duration = 60 * m + s)%Z)
  ∧ ((3600 <= duration)%Z →
     ∃ h m, text = pretty h +:+ "h " +:+ pretty m +:+ "m"
            ∧ (1 <= h)%Z ∧ (0 <= m < 60)%Z
            ∧ (3600 * h + 60 * m <= duration < 3600 * h + 60 * m + 60)%Z)
  ∧ (∀ start' end' now',
       let duration' := ((default now' end' - start') / 1000)%Z in
       (3600 <= duration)%Z → (duration / 60 = duration' / 60)%Z →
       formatDuration start' end' now' = text).
Proof.
  intros elapsed duration text. subst text. unfold formatDuration.
  fold elapsed. fold duration.
  assert (duration = (elapsed / 1000)%Z) as Hduration by reflexivity.
  clearbody duration elapsed.
  split_and!.
  - intros Hd. by rewrite decide_True.
  - intros He. assert (duration = 0%Z) as -> by (Z.to_euclidean_division_equations; lia).
    by rewrite decide_True.
  - intros He. rewrite decide_True by (Z.to_euclidean_division_equations; lia).
    assert (duration < 0)%Z as Hneg by (Z.to_euclidean_division_equations; lia).
    destruct duration as [|p|p]; [lia | lia |]. by exists p.
  - intros Hd. rewrite decide_False, decide_True by (Z.to_euclidean_division_equations; lia).
    rewrite Z.rem_mod_nonneg by (Z.to_euclidean_division_equations; lia).
    exists (duration / 60)%Z, (duration mod 60)%Z. split_and!; try done; Z.to_euclidean_division_equations; lia.
  - intros Hd. rewrite !decide_False by (Z.to_euclidean_division_equations; lia).
    rewrite Z.rem_mod_nonneg by (Z.to_euclidean_division_equations; lia).
    exists (duration / 3600)%Z, (duration mod 3600 / 60)%Z. split_and!; try done; Z.to_euclidean_division_equations; lia.
  - intros start' end' now'.
    set (duration' := ((default now' end' - start') / 1000)%Z). clearbody duration'.
    intros Hd Hmin.
    rewrite !(decide_False (P := (duration < _)%Z)) by (Z.to_euclidean_division_equations; lia).
    rewrite !(decide_False (P := (duration' < _)%Z)) by (Z.to_euclidean_division_equations; lia).
    rewrite !Z.rem_mod_nonneg by (Z.to_euclidean_division_equations; lia).
    replace (duration' / 3600)%Z with (duration / 3600)%Z by (Z.to_euclidean_division_equations; lia).
    replace (duration' mod 3600 / 60)%Z with (duration mod 3600 / 60)%Z by (Z.to_euclidean_division_equations; lia).
    done.
Qed.

Lemma formatDuration_witness :
  formatDuration 0 (Some 3725999%Z) 0 = formatDuration 1000 None 3721000
  ∧ formatDuration 5000 (Some 1000%Z) 0 = "-4s".
Proof.
  destruct (formatDuration_units 1000 None 3721000)
    as (_ & _ & _ & _ & _ & Hminute).
  destruct (formatDuration_units 5000 (Some 1000%Z) 0) as (Hseconds & _).
  split.
  - apply (Hminute 0%Z (Some 3725999%Z) 0%Z); vm_compute; [discriminate | reflexivity].
  - rewrite Hseconds; [reflexivity | vm_compute; reflexivity].
Defined.

End Durations.

Set Warnings "-clear-no-such-hyp".

Section Panes.

Import JobMonitorView ResultsView.

(** X12.  The job monitor offers the cancel button and the progress for a
    running job only and fetches and shows block results for completed and
    for failed jobs, while the results panel lists results for a completed
    job only: the block results of a failed job can be read in the job
    monitor but never in the results panel, which says that the job has no
    results; a pending or cancelled job shows results in neither. *)
Theorem failed_jobs_show_results_in_the_monitor_only
    (status : JobStatus) (jobProgress jobResults error_message : bool) :
  (cancel_button ∈ details status jobProgress jobResults error_message
   ↔ status = running)
  ∧ (progress_part ∈ details status jobProgress jobResults error_message
     ↔ status = running ∧ jobProgress = true)
  ∧ (results_part ∈ details status jobProgress jobResults error_message
     ↔ (status = completed ∨ status = failed) ∧ jobResults = true)
  ∧ (results_query_enabled (Some status) = true ↔ status = completed ∨ status = failed)
  ∧ (progress_query_enabled (Some status) = true ↔ status = running)
  ∧ (∀ jobId isLoading,
       render jobId isLoading jobResults (Some status) = results_list
       ↔ truthy_string jobId = true ∧ isLoading = false ∧ jobResults = true
         ∧ status = completed)
  ∧ (∀ jobId,
       truthy_string jobId = true → status ≠ completed →
       render jobId false jobResults (Some status)
       = no_results (if bool_decide (status = running)
                     then "Job is still running. Results will appear when completed."
                     else "This job has no results to display.")).
Proof.
  split_and!.
  - unfold details.
    destruct status, jobProgress, jobResults, error_message; cbn; set_solver.
  - unfold details.
    destruct status, jobProgress, jobResults, error_message; cbn; set_solver.
  - unfold details.
    destruct status, jobProgress, jobResults, error_message; cbn; set_solver.
  - destruct status; vm_compute; naive_solver.
  - destruct status; vm_compute; naive_solver.
  - intros jobId isLoading. unfold render.
    destruct (truthy_string jobId), isLoading, jobResults, status; vm_compute;
      naive_solver.
  - intros jobId Htruthy Hstatus. unfold render. rewrite Htruthy. simpl.
    destruct jobResults, status; done.
Qed.

Lemma failed_job_witness :
  JobMonitorView.details failed false true true
  = [JobMonitorView.results_part; JobMonitorView.error_part]
  ∧ ResultsView.render (Some "j1") false true (Some failed)
    = ResultsView.no_results "This job has no results to display.".
Proof.
  split; [reflexivity|].
  destruct (failed_jobs_show_results_in_the_monitor_only failed false true true)
    as (_ & _ & _ & _ & _ & _ & Hpanel).
  apply (Hpanel (Some "j1")); [reflexivity | discriminate].
Defined.

End Panes.

(** * The lines of the canvas *)

Section Lines.

Import WorkflowBuilder Graph Canvas ConnectionLines.

Implicit Types (st : state).

Lemma find_block_is_Some st blockId :
  is_Some (find_block st blockId) ↔ blockId ∈ block_id <$> blocks st.
Proof.
  unfold find_block. rewrite fmap_is_Some, list_elem_of_fmap. split.
  - intros [[i b] (Hi & Hb & _)%list_find_Some].
    exists b. split; [done|]. by eapply list_elem_of_lookup_2.
  - intros (b & -> & Hin). by eapply list_find_elem_of.
Qed.

Lemma connection_line_is_Some st connection :
  is_Some (connection_line st connection)
  ↔ source_block_id connection ∈ block_id <$> blocks st
    ∧ target_block_id connection ∈ block_id <$> blocks st.
Proof.
  rewrite <- !find_block_is_Some. unfold connection_line.
  destruct (find_block st (source_block_id connection)) as [s|];
    destruct (find_block st (target_block_id connection)) as [t|]; simpl;
    split; try done; try (by intros [[? ?] [? ?]]); try (by intros [? [? ?]]);
    try (by intros [[? ?] ?]).
Qed.

(** X13.  A connection has a line on the canvas exactly when both of its
    blocks exist.  In every state the canvas can reach, every connection has
    its line: none is skipped.  The connect handler itself never checks that
    the blocks exist: called with an id that no block has, it adds a
    connection that is never drawn. *)
Theorem every_connection_on_the_canvas_is_drawn :
  (∀ st connection,
     is_Some (connection_line st connection)
     ↔ source_block_id connection ∈ block_id <$> blocks st
       ∧ target_block_id connection ∈ block_id <$> blocks st)
  ∧ (∀ evs, Forall is_Some (connection_lines (ui_run evs))
            ∧ length (connection_lines (ui_run evs)) = length (connections (ui_run evs)))
  ∧ (∀ sourceId targetId uuid st,
       sourceId ≠ targetId →
       (sourceId, targetId) ∉ pair_of <$> connections st →
       sourceId ∉ block_id <$> blocks st ∨ targetId ∉ block_id <$> blocks st →
       let st' := (connectBlocks sourceId targetId uuid st).1 in
       connections st' = connections st ++ [mkWorkflowConnection uuid sourceId targetId]
       ∧ connection_line st' (mkWorkflowConnection uuid sourceId targetId) = None).
Proof.
  split_and!.
  - apply connection_line_is_Some.
  - intros evs. split; [|unfold connection_lines; by rewrite length_fmap].
    destruct (ui_run_inv evs) as [Href _].
    unfold connection_lines. apply Forall_fmap, Forall_forall.
    intros connection Hin. apply connection_line_is_Some. by apply Href.
  - intros sourceId targetId uuid st Hne Hnew Hmissing st'. subst st'.
    rewrite connectBlocks_connections. rewrite decide_False by tauto.
    split; [done|].
    apply eq_None_not_Some. rewrite connection_line_is_Some. simpl.
    assert (blocks (connectBlocks sourceId targetId uuid st).1 = blocks st) as ->.
    { unfold connectBlocks. destruct (list_find _ _); [done|]. by case_decide. }
    tauto.
Qed.

Lemma connection_never_drawn_witness :
  let st' := (connectBlocks "A" "B" "c1" initial).1 in
  connections st' = [mkWorkflowConnection "c1" "A" "B"]
  ∧ connection_lines st' = [None].
Proof.
  intros st'.
  destruct every_connection_on_the_canvas_is_drawn as (_ & _ & Hmissing).
  destruct (Hmissing "A" "B" "c1" initial) as [Hconns Hline].
  - discriminate.
  - vm_compute. by intros ?%elem_of_nil.
  - left. vm_compute. by intros ?%elem_of_nil.
  - split; [exact Hconns|]. subst st'. unfold connection_lines.
    change (connections (connectBlocks "A" "B" "c1" initial).1)
      with [mkWorkflowConnection "c1" "A" "B"].
    cbn [fmap list_fmap]. by rewrite Hline.
Defined.

End Lines.

(** * File names *)

Section FileNames.

Import ResultsView.

Lemma split_slash_cons s : ∃ segment segments, split_slash s = segment :: segments.
Proof.
  destruct s as [|c rest]; simpl; [by eauto|].
  destruct (Ascii.eqb _ _); [by eauto|]. destruct (split_slash rest); by eauto.
Qed.

Lemma slash_eq c : Ascii.eqb c (Ascii.ascii_of_nat 47) = true → String c "" = "/".
Proof. intros ->%Ascii.eqb_eq. reflexivity. Qed.

Lemma join_slash_cons a b l :
  join_slash (a :: b :: l) = a +:+ "/" +:+ join_slash (b :: l).
Proof. reflexivity. Qed.

Lemma join_split s : join_slash (split_slash s) = s.
Proof.
  induction s as [|c rest IH]; [done|]. cbn [split_slash].
  destruct (split_slash_cons rest) as (segment & segments & Hrest).
  rewrite Hrest in *.
  destruct (Ascii.eqb c _) eqn:Hc.
  - apply slash_eq in Hc. injection Hc as ->.
    rewrite join_slash_cons, IH. done.
  - destruct segments as [|s2 segments].
    + simpl in *. by rewrite IH.
    + rewrite join_slash_cons in *. by rewrite <- IH.
Qed.

(** last segment of a longer path *)
Lemma last_split_cons c rest :
  last (split_slash (String c rest))
  = if Ascii.eqb c (Ascii.ascii_of_nat 47) then last (split_slash rest)
    else match split_slash rest with
         | [segment] => Some (String c segment)
         | _ => last (split_slash rest)
         end.
Proof.
  simpl. destruct (split_slash_cons rest) as (segment & segments & Hrest).
  rewrite Hrest. destruct (Ascii.eqb c _); [done|]. by destruct segments.
Qed.

Lemma segments_have_no_slash s :
  Forall (λ segment, split_slash segment = [segment]) (split_slash s).
Proof.
  induction s as [|c rest IH]; [by repeat constructor|]. simpl.
  destruct (split_slash_cons rest) as (segment & segments & Hrest).
  rewrite Hrest in *. apply Forall_cons in IH as [Hseg Hsegs].
  destruct (Ascii.eqb c _) eqn:Hc.
  - by repeat constructor.
  - constructor; [|done]. simpl. by rewrite Hc, Hseg.
Qed.

Lemma file_name_decomposition s :
  ∃ name dir, last (split_slash s) = Some name ∧ s = dir +:+ name
    ∧ (split_slash s = [s] ∧ dir = "" ∨ (∃ parent, dir = parent +:+ "/") ∧ 2 ≤ length (split_slash s)).
Proof.
  induction s as [|c rest IH].
  - exists "", "". simpl. auto.
  - destruct IH as (name & dir & Hlast & Hrest & Hdir).
    rewrite last_split_cons. simpl.
    destruct (split_slash_cons rest) as (segment & segments & Hsplit).
    destruct (Ascii.eqb c _) eqn:Hc.
    + apply slash_eq in Hc. injection Hc as ->.
      exists name, ("/" +:+ dir). split_and!; [done | by rewrite Hrest |].
      right. split; [|rewrite Hsplit; simpl; lia].
      destruct Hdir as [[_ ->] | [[parent ->] _]]; [by exists "" | by exists ("/" +:+ parent)].
    + destruct Hdir as [[Hone ->] | [[parent ->] Hlen]].
      * simpl in Hrest. subst rest. rewrite Hone.
        exists (String c name), "". split_and!; [done | done |]. left. done.
      * rewrite Hsplit in *. destruct segments as [|s2 segments]; [simpl in Hlen; lia|].
        exists name, (String c parent +:+ "/"). split_and!; [done | by rewrite Hrest |].
        right. split; [by eexists | simpl; lia].
Qed.

Lemma last_split_trailing parent :
  last (split_slash (parent +:+ "/")) = Some ""
  ∧ 2 ≤ length (split_slash (parent +:+ "/")).
Proof.
  induction parent as [|c parent [IHlast IHlen]]; [by split; [|simpl; lia]|].
  change (String c parent +:+ "/") with (String c (parent +:+ "/")).
  rewrite last_split_cons. cbn [split_slash].
  destruct (split_slash (parent +:+ "/")) as [|s1 [|s2 segments]];
    [simpl in IHlen; lia.. |].
  destruct (Ascii.eqb c _); split; try done; simpl; lia.
Qed.

(** X14.  The file name shown for the final output, which is also the
    name the download asks for, is the part of the path after its last
    slash: it contains no slash, the path is a directory part, empty or
    ending in a slash, followed by the name, and a path without a slash is
    its own name; a path that ends in a slash has the empty name.  Splitting
    a path at the slashes and joining the segments gives the path back. *)
Theorem file_name_is_the_last_segment (path : string) :
  ∃ name dir,
    shown_file_name path = Some name
    ∧ download_file_name path = name
    ∧ path = dir +:+ name
    ∧ split_slash name = [name]
    ∧ (dir = "" ∨ ∃ parent, dir = parent +:+ "/")
    ∧ join_slash (split_slash path) = path
    ∧ (split_slash path = [path] → name = path)
    ∧ (∀ parent, path = parent +:+ "/" → name = "").
Proof.
  destruct (file_name_decomposition path) as (name & dir & Hlast & Hpath & Hdir).
  exists name, dir. split_and!; try done.
  - unfold download_file_name, shown_file_name. rewrite Hlast.
    destruct (String.eqb_spec name "") as [Heq|Hne]; congruence.
  - apply last_Some in Hlast as [segments Hsegments].
    pose proof (segments_have_no_slash path) as Hno.
    rewrite Hsegments in Hno. apply Forall_app in Hno as [_ Hno].
    by inversion Hno.
  - destruct Hdir as [[_ ?] | [? _]]; auto.
  - apply join_split.
  - intros Hone. rewrite Hone in Hlast. by injection Hlast.
  - intros parent ->. destruct (last_split_trailing parent) as [Hlast' _].
    congruence.
Qed.

Lemma file_name_witness :
  ∃ name dir,
    shown_file_name "outputs/run/" = Some name
    ∧ "outputs/run/" = dir +:+ name
    ∧ name = "".
Proof.
  destruct (file_name_is_the_last_segment "outputs/run/")
    as (name & dir & Hshown & _ & Hpath & _ & _ & _ & _ & Htrailing).
  exists name, dir. split_and!; [exact Hshown | exact Hpath |].
  apply (Htrailing "outputs/run"). reflexivity.
Defined.

Example file_name_example :
  shown_file_name "outputs/run 7/leads_enriched.csv" = Some "leads_enriched.csv"
  ∧ split_slash "/a//b" = [""; "a"; ""; "b"].
Proof. split; reflexivity. Qed.

End FileNames.

(** * The block card and the parameters modal *)

Section Strings.




End Strings.

Section Summary.

Import BlockComponent.

Variable String_ : jsval → string.


End Summary.


Section ModalFacts.

Import WorkflowBuilder BlockParametersModal.

Variable parseInt : string → option Z.
Variable JSON_parse : string → option jsval.

Local Abbreviation edited := (BlockParametersModal.edited parseInt JSON_parse).
Local Abbreviation change := (BlockParametersModal.change parseInt JSON_parse).
Local Abbreviation handleSave := (BlockParametersModal.handleSave parseInt JSON_parse).

Lemma inputs_keys_NoDup blockType : NoDup (inputs blockType).*1.
Proof.
  unfold inputs.
  repeat (destruct (String.eqb blockType _);
          [apply (bool_decide_unpack _); by vm_compute|]).
  constructor.
Qed.

Lemma find_input blockType key type :
  (key, type) ∈ inputs blockType →
  ∃ i, list_find (λ input, input.1 = key) (inputs blockType) = Some (i, (key, type)).
Proof.
  intros Hin.
  destruct (list_find_elem_of (λ input, input.1 = key) (inputs blockType) (key, type))
    as [[i [key' type']] Hfind]; [done..|].
  exists i. rewrite Hfind. do 2 f_equal.
  apply list_find_Some in Hfind as (Hi & Hkey & _). simpl in Hkey. subst key'.
  apply list_elem_of_lookup in Hin as [j Hj].
  assert (i = j); [|congruence].
  eapply (NoDup_lookup _ i j key); [apply inputs_keys_NoDup | |];
    by rewrite list_lookup_fmap, ?Hi, ?Hj.
Qed.

Lemma change_other_key blockType parameters c key :
  c.1 ≠ key → change blockType parameters c !! key = parameters !! key.
Proof.
  intros Hne. unfold BlockParametersModal.change.
  destruct (list_find _ _) as [[i [k type]]|]; [|done].
  unfold onChange, updateParameter.
  destruct type; try by rewrite lookup_insert_ne.
  destruct (JSON_parse _); [by rewrite lookup_insert_ne | done].
Qed.

Lemma change_without_input blockType parameters c :
  c.1 ∉ (inputs blockType).*1 → change blockType parameters c = parameters.
Proof.
  intros Hno. unfold BlockParametersModal.change.
  destruct (list_find _ _) as [[i [k type]]|] eqn:Hfind; [|done].
  apply list_find_Some in Hfind as (Hi & Hkey & _). simpl in Hkey.
  destruct Hno. apply list_elem_of_fmap. exists (k, type).
  split; [done|]. by eapply list_elem_of_lookup_2.
Qed.

Lemma change_stores blockType parameters c type :
  (c.1, type) ∈ inputs blockType →
  change blockType parameters c !! c.1 = parameters !! c.1
  ∨ ∃ v, change blockType parameters c !! c.1 = Some v ∧ stores type v.
Proof.
  intros [i Hfind]%find_input. unfold BlockParametersModal.change. rewrite Hfind.
  unfold onChange, updateParameter.
  destruct type; try (right; eexists; rewrite lookup_insert_eq; split; [done|]; by eexists).
  destruct (JSON_parse _); [|by left].
  right. eexists. rewrite lookup_insert_eq. done.
Qed.

Lemma edited_snoc block changes c :
  edited block (changes ++ [c]) = change (block_type block) (edited block changes) c.
Proof. unfold BlockParametersModal.edited. apply foldl_snoc. Qed.

(** X16.  Whatever is typed into the parameters modal, only the
    parameters that have an input for the type of the block can change: every
    other key of the block keeps its value, and after any changes a key with
    an input holds either its old value or a value of the kind of its input
    (a string for a text field, a number for a number field, a boolean for
    the checkbox); text that is not valid JSON leaves a JSON field as it was.
    Saving writes the edited parameters to the blocks with the id of the
    block and changes nothing else; saving without a change leaves the whole
    state as it was. *)
Theorem modal_edits_only_the_offered_parameters (block : BlockConfig)
    (changes : list (string * target)) :
  (∀ key, key ∉ (inputs (block_type block)).*1 →
          edited block changes !! key = parameters block !! key)
  ∧ (∀ key type, (key, type) ∈ inputs (block_type block) →
       edited block changes !! key = parameters block !! key
       ∨ ∃ v, edited block changes !! key = Some v ∧ stores type v)
  ∧ (∀ key e, (key, object_input) ∈ inputs (block_type block) →
       JSON_parse (value e) = None →
       edited block (changes ++ [(key, e)]) = edited block changes)
  ∧ (∀ st i b, blocks st !! i = Some b →
       ∃ b', blocks (handleSave block changes st).1 !! i = Some b'
             ∧ block_id b' = block_id b ∧ block_type b' = block_type b
             ∧ position b' = position b
             ∧ parameters b' = if decide (block_id b = block_id block)
                               then edited block changes else parameters b)
  ∧ (∀ st, connections (handleSave block changes st).1 = connections st)
  ∧ (∀ st, block ∈ blocks st → NoDup (block_id <$> blocks st) →
           (handleSave block [] st).1 = st).
Proof.
  split_and!.
  - intros key Hkey. induction changes as [|c changes' IH] using rev_ind; [done|].
    rewrite edited_snoc.
    destruct (decide (c.1 = key)) as [<-|Hne].
    + by rewrite change_without_input.
    + by rewrite change_other_key.
  - intros key type Hin. induction changes as [|c changes' IH] using rev_ind; [by left|].
    rewrite edited_snoc.
    destruct (decide (c.1 = key)) as [<-|Hne].
    + destruct (change_stores (block_type block) (edited block changes') c type Hin)
        as [-> | Hnew]; [done | by right].
    + by rewrite change_other_key.
  - intros key e [i Hfind]%find_input Hparse. rewrite edited_snoc.
    unfold BlockParametersModal.change. simpl. rewrite Hfind. simpl. by rewrite Hparse.
  - intros st i b Hb. unfold BlockParametersModal.handleSave, handleParametersUpdate.
    simpl. rewrite list_lookup_fmap, Hb. simpl. eexists. split; [done|].
    case_decide; done.
  - done.
  - intros st Hin Hdup. unfold BlockParametersModal.handleSave, handleParametersUpdate.
    destruct st as [bs conns from connecting]. unfold updateBlock, setBlocks.
    simpl in *. f_equal.
    rewrite <- (list_fmap_id bs) at 2. apply list_fmap_ext.
    intros i b Hb. simpl. case_decide as Hid; [|done].
    assert (b = block) as ->; [|by destruct block].
    apply list_elem_of_lookup in Hin as [j Hj].
    assert (i = j); [|congruence].
    eapply NoDup_lookup; [exact Hdup | |]; by rewrite list_lookup_fmap, ?Hb, ?Hj; simpl;
      rewrite ?Hid.
Qed.

End ModalFacts.

Lemma modal_witness :
  let block := mkBlockConfig "E" "find_email" "Find Email"
                 (Part002.getDefaultParameters "find_email") (Position.mk 200 200) in
  let changes := [("bruteforce", BlockParametersModal.mkTarget "false" false);
                  ("batch_size", BlockParametersModal.mkTarget "" false)] in
  BlockParametersModal.edited (λ _, None) (λ _, None) block changes !! "bruteforce"
  = Some (JBool true)
  ∧ BlockParametersModal.edited (λ _, None) (λ _, None) block changes !! "batch_size"
    = Some (JNum 0).
Proof.
  intros block changes. split; [|reflexivity].
  rewrite (proj1 (modal_edits_only_the_offered_parameters (λ _, None) (λ _, None)
                    block changes) "bruteforce"); [reflexivity|].
  vm_compute. intros Hin.
  repeat (inversion Hin as [|? ? ? Hin']; subst; clear Hin; rename Hin' into Hin).
Defined.

(** * From the modal to the block card *)

Section SessionFacts.

Import WorkflowBuilder Canvas BlockComponent BlockParametersModal Session.

Variable parseInt : string → option Z.
Variable JSON_parse : string → option jsval.
Variable String_ : jsval → string.

Local Abbreviation session := (Session.session parseInt JSON_parse).
Local Abbreviation summary := (BlockComponent.getParameterSummary String_).

Lemma default_condition_is_string id blockType nm pos :
  condition_is_string (mkBlockConfig id blockType nm (Part002.getDefaultParameters blockType) pos)
  ∧ condition_is_string (mkBlockConfig id blockType nm (Part001.getDefaultParameters blockType) pos).
Proof.
  unfold condition_is_string, Part002.getDefaultParameters, Part001.getDefaultParameters.
  cbn [parameters].
  split; intros v;
    repeat (destruct (String.eqb blockType _));
    intros Hv; vm_compute in Hv; simplify_eq; eauto.
Qed.

Lemma condition_is_string_summary block :
  condition_is_string block → is_Some (summary block).
Proof.
  intros Hcond. unfold getParameterSummary, param.
  repeat (destruct (String.eqb (block_type block) _); [by eexists|]).
  destruct (String.eqb (block_type block) _).
  - destruct (parameters block !! "condition") as [v|] eqn:Hv; simpl; [|by eexists].
    destruct (Hcond v Hv) as [s ->]. by destruct (truthy _).
  - repeat (destruct (String.eqb (block_type block) _); [by eexists|]). by eexists.
Qed.

Lemma condition_input blockType type :
  ("condition", type) ∈ inputs blockType → type = textarea_input.
Proof.
  unfold inputs.
  repeat (destruct (String.eqb blockType _); [set_unfold; naive_solver|]).
  set_unfold; naive_solver.
Qed.

Lemma edited_condition_is_string block changes :
  condition_is_string block →
  ∀ v, edited parseInt JSON_parse block changes !! "condition" = Some v → ∃ s, v = JStr s.
Proof.
  intros Hcond. induction changes as [|c changes' IH] using rev_ind; [exact Hcond|].
  rewrite edited_snoc. intros v.
  destruct (decide (c.1 = "condition")) as [Hkey|Hne].
  - unfold change.
    destruct (list_find _ _) as [[i [k type]]|] eqn:Hfind; [|apply IH].
    apply list_find_Some in Hfind as (Hi & Hk & _). simpl in Hk.
    apply list_elem_of_lookup_2 in Hi. rewrite Hk, Hkey in Hi.
    apply condition_input in Hi as ->.
    rewrite Hkey. unfold onChange, updateParameter. rewrite lookup_insert_eq.
    intros [= <-]. by eexists.
  - rewrite change_other_key by done. apply IH.
Qed.

Lemma ui_step_condition st ev :
  (∀ blockId parameters, ev ≠ parameters_saved blockId parameters) →
  Forall condition_is_string (blocks st) →
  Forall condition_is_string (blocks (ui_step st ev)).
Proof.
  intros Hev Hall.
  assert (∀ targetId uuid, blocks (finishConnection targetId uuid st).1 = blocks st) as Hfinish.
  { intros targetId uuid. unfold finishConnection.
    destruct (_ || _); [done|]. destruct (list_find _ _); [done|]. by case_decide. }
  assert (∀ fuel blockType p uuid,
            Forall condition_is_string
              (blocks (default st (fst <$> Part002.addBlock fuel blockType p uuid st))))
    as Hadd.
  { intros fuel blockType p uuid. unfold Part002.addBlock, addBlock.
    destruct (match p with Some _ => _ | None => _ end) as [xy|]; [|done].
    simpl. apply Forall_app. split; [done|]. apply Forall_singleton.
    apply default_condition_is_string. }
  destruct ev; cbn [ui_step]; try apply Hadd;
    try (case_decide; [|done]; cbn [on_block]).
  - destruct (isConnecting st && canBeTarget st blockId); [by rewrite Hfinish | done].
  - by destruct (isConnecting st).
  - destruct (isConnecting st); [done|]. simpl.
    apply Forall_forall. intros b [_ Hb]%list_elem_of_filter.
    by eapply Forall_forall in Hall.
  - destruct (isConnecting st && canBeTarget st blockId); [by rewrite Hfinish|].
    by destruct (isConnecting st).
  - by destruct (isConnecting st).
  - done.
  - simpl. apply Forall_fmap. eapply Forall_impl; [exact Hall|].
    intros b Hb. simpl. by case_decide.
  - by edestruct Hev.
Qed.

Lemma session_condition evs :
  session evs → Forall condition_is_string (blocks (ui_run evs)).
Proof.
  induction 1 as [|evs ev _ IH Hev|evs block changes _ IH Hin].
  - constructor.
  - unfold ui_run. rewrite foldl_snoc. by apply ui_step_condition.
  - unfold ui_run. rewrite foldl_snoc. cbn [ui_step]. simpl.
    apply Forall_fmap. eapply Forall_impl; [exact IH|].
    intros b Hb. simpl. case_decide; [|done].
    unfold condition_is_string. simpl.
    apply edited_condition_is_string. by eapply Forall_forall in IH.
Qed.

(** X17.  As long as parameters are saved through the parameters modal
    only, every block on the canvas has a summary line: the card of a block
    never fails to render.  The reason is that a block is created with a
    string as its condition, or with none, and the modal edits the condition
    through a text area, which stores strings.  [updateBlock] itself does not
    protect the card: a filter block that gets a non-zero number as its
    condition has no summary. *)
Theorem configured_blocks_always_have_a_summary :
  (∀ evs, session evs →
     Forall (λ block, condition_is_string block ∧ is_Some (summary block))
       (blocks (ui_run evs)))
  ∧ (∀ block changes v,
       condition_is_string block →
       edited parseInt JSON_parse block changes !! "condition" = Some v →
       ∃ s, v = JStr s)
  ∧ (∀ block n st,
       block ∈ blocks st → block_type block = "filter" → n ≠ 0%Z →
       ∃ block',
         block' ∈ blocks (ui_step st (parameters_saved (block_id block)
                                        {[ "condition" := JNum n ]}))
         ∧ block_id block' = block_id block
         ∧ summary block' = None).
Proof.
  split_and!.
  - intros evs Hsession%session_condition.
    eapply Forall_impl; [exact Hsession|].
    intros block Hcond. split; [done|]. by apply condition_is_string_summary.
  - intros block changes v Hcond. by apply edited_condition_is_string.
  - intros block n st Hin Hty Hn.
    eexists. split_and!.
    + cbn [ui_step]. simpl. apply list_elem_of_fmap. eexists. split; [|exact Hin].
      rewrite decide_True by done. reflexivity.
    + done.
    + unfold getParameterSummary, param. simpl. rewrite Hty. simpl.
      rewrite lookup_singleton_eq. simpl. by destruct n.
Qed.

End SessionFacts.

Lemma session_witness :
  let evs := [Canvas.palette_click "filter" "f";
              Canvas.parameters_saved "f"
                (BlockParametersModal.edited (λ _, None) (λ _, None)
                   (mkBlockConfig "f" "filter" "Filter"
                      (Part002.getDefaultParameters "filter") (Position.mk 200 200))
                   [("condition", BlockParametersModal.mkTarget "df.x > 1" false)])] in
  Forall (λ block, Session.condition_is_string block
                   ∧ is_Some (BlockComponent.getParameterSummary (λ _, "") block))
    (WorkflowBuilder.blocks (Canvas.ui_run evs)).
Proof.
  intros evs.
  apply (proj1 (configured_blocks_always_have_a_summary (λ _, None) (λ _, None) (λ _, ""))).
  apply (Session.session_save (λ _, None) (λ _, None) [Canvas.palette_click "filter" "f"]
           (mkBlockConfig "f" "filter" "Filter"
              (Part002.getDefaultParameters "filter") (Position.mk 200 200))).
  - apply (Session.session_event _ _ []); [constructor | done].
  - vm_compute. constructor.
Defined.
